(** * identity-tools-cli: application and identity-provider utilities

    A shallow embedding of [iamctl/pkg/applications/applicationUtils.go] and
    of the identity-provider utilities that mirror it, with the properties
    of the resource lister, the auth-type classifier, the secret masker, the
    protected-resource guard and the keyword resolver.

    Go strings and byte slices are both sequences of bytes and are modelled
    by [list byte]; the conversions [string(b)] and [[]byte(s)] keep the
    bytes and are the identity here. *)

From Stdlib Require Import String List ZArith Lia Bool DecimalString.
From Stdlib Require Import Strings.Byte.
From stdpp Require Import gmap.
Import ListNotations.

Local Open Scope Z_scope.

(** ** Bytes and string literals *)

Definition str (s : string) : list byte := list_byte_of_string s.

Definition LF : byte := x0a.

Definition is_nl (b : byte) : bool := Byte.eqb b LF.

#[global] Instance byte_eq_decision : EqDecision byte := byte_eq_dec.

#[global] Instance byte_countable : Countable byte :=
  inj_countable Byte.to_nat Byte.of_nat Byte.of_to_nat.

(** [strconv.Itoa], the decimal form that the verb [%d] prints. *)
Definition Itoa (z : Z) : list byte := str (NilZero.string_of_int (Z.to_int z)).

(** ** A backtracking matcher for the regular expressions of the pattern

    Go's [regexp] returns the leftmost match and, among the matches that
    start there, the one a backtracking search finds first; a starred item
    is greedy.  The matcher below is that search, written with a success
    continuation.  Under the flag [(?m)], [^] holds at the start of the text
    and after a line feed, [$] at the end of the text and before a line
    feed.  The class [\s] is [[\t\n\f\r ]].  Go matches runes; the items
    of the pattern are ASCII and a position inside a rune of several bytes
    is not preceded by a line feed, so matching byte by byte finds the same
    matches. *)

Module Regexp.

Inductive class : Type :=
| CByte (b : byte)
| CSpace.

Definition is_space (b : byte) : bool :=
  match b with
  | x09 | x0a | x0c | x0d | x20 => true
  | _ => false
  end.

Definition class_mem (c : class) (b : byte) : bool :=
  match c with
  | CByte a => Byte.eqb a b
  | CSpace => is_space b
  end.

Inductive regex : Type :=
| Chr (c : class)
| BeginLine
| EndLine
| Cat (r1 r2 : regex)
| Star (c : class)
| Group (r : regex)
| Empty.

(** A literal string is the concatenation of its bytes. *)
Fixpoint Lit (s : list byte) : regex :=
  match s with
  | [] => Empty
  | b :: s' => Cat (Chr (CByte b)) (Lit s')
  end.

(** A thread of the search: whether the position is at the beginning of a
    line, the bytes matched so far, the bytes still to read and the text of
    capture group 1. *)
Record thread : Type := Thread {
  bol : bool;
  seen : list byte;
  rest : list byte;
  cap : option (list byte)
}.

Definition advance (b : byte) (s' : list byte) (t : thread) : thread :=
  {| bol := is_nl b; seen := seen t ++ [b]; rest := s'; cap := cap t |}.

Definition set_cap (from : nat) (t : thread) : thread :=
  {| bol := bol t; seen := seen t; rest := rest t;
     cap := Some (skipn from (seen t)) |}.

Definition at_eol (s : list byte) : bool :=
  match s with
  | [] => true
  | b :: _ => is_nl b
  end.

Section Matcher.
Context {R : Type}.

(** Greedy [c*]: take one more byte when the rest of the pattern then
    succeeds, otherwise go on from here. *)
Fixpoint star (c : class) (k : thread -> option R) (bl : bool)
         (sn : list byte) (cp : option (list byte)) (s : list byte)
  : option R :=
  match s with
  | b :: s' =>
      if class_mem c b then
        match star c k (is_nl b) (sn ++ [b]) cp s' with
        | Some r => Some r
        | None => k (Thread bl sn s cp)
        end
      else k (Thread bl sn s cp)
  | [] => k (Thread bl sn [] cp)
  end.

Fixpoint run (r : regex) (k : thread -> option R) (t : thread) : option R :=
  match r with
  | Chr c =>
      match rest t with
      | b :: s' => if class_mem c b then k (advance b s' t) else None
      | [] => None
      end
  | BeginLine => if bol t then k t else None
  | EndLine => if at_eol (rest t) then k t else None
  | Cat r1 r2 => run r1 (run r2 k) t
  | Star c => star c k (bol t) (seen t) (cap t) (rest t)
  | Group r' => run r' (fun t' => k (set_cap (length (seen t)) t')) t
  | Empty => k t
  end.
End Matcher.

(** A match attempt that starts at the current position. *)
Definition exec (re : regex) (bl : bool) (s : list byte) : option thread :=
  run re Some (Thread bl [] s None).

(** Template expansion of [ReplaceAllString], for the reference [${1}] to
    capture group 1; every other byte of the template is copied.  Go gives
    a meaning to other uses of [$] as well; they are outside this model, so
    the properties below take a template whose only [$] is that of
    [${1}]. *)
Fixpoint expand (template : list byte) (group1 : list byte) : list byte :=
  match template with
  | "$"%byte :: "{"%byte :: "1"%byte :: "}"%byte :: tl =>
      group1 ++ expand tl group1
  | b :: tl => b :: expand tl group1
  | [] => []
  end.

Definition group_text (t : thread) : list byte :=
  match cap t with
  | Some g => g
  | None => []
  end.

(** [ReplaceAllString]: scan from the left; at the first position where the
    pattern matches, emit the expanded template and go on after the match;
    elsewhere copy the byte.  The position after a match is at the beginning
    of a line exactly when the match ended with a line feed, which the
    thread records.  [fuel] bounds the number of steps; a step consumes at
    least one byte since the patterns used here do not match the empty
    string. *)
Fixpoint replaceAll (fuel : nat) (re : regex) (template : list byte)
         (bl : bool) (src : list byte) : list byte :=
  match fuel with
  | O => src
  | S fuel' =>
      match exec re bl src with
      | Some t =>
          expand template (group_text t)
          ++ replaceAll fuel' re template (bol t) (rest t)
      | None =>
          match src with
          | [] => []
          | b :: src' => b :: replaceAll fuel' re template (is_nl b) src'
          end
      end
  end.

Definition ReplaceAllString (re : regex) (src template : list byte)
  : list byte :=
  replaceAll (S (length src)) re template true src.

End Regexp.

Import Regexp.

(** ** Errors, effects and the outside world *)

Module golang.

(** An [error] value: its message and the error it wraps, if any. *)
Inductive error : Type :=
| NewError (msg : list byte)
| WrapError (msg : list byte) (cause : error).

Definition Error (e : error) : list byte :=
  match e with
  | NewError msg => msg
  | WrapError msg _ => msg
  end.

Definition Unwrap (e : error) : option error :=
  match e with
  | NewError _ => None
  | WrapError _ cause => Some cause
  end.

(** [fmt.Errorf(text)] without operands or verbs. *)
Definition Errorf (text : list byte) : error := NewError text.

(** [fmt.Errorf(text + "%w", err)]: the message of [err] is appended and
    [err] is wrapped. *)
Definition Errorf_w (text : list byte) (err : error) : error :=
  WrapError (text ++ Error err) err.

(** [fmt.Errorf(text + "%s", s)]. *)
Definition Errorf_s (text : list byte) (s : list byte) : error :=
  NewError (text ++ s).

(** What the program does to the outside world, in order: the requests it
    sends, the response bodies it closes (named by the number of the
    request they answer) and the lines it logs. *)
Inductive event : Type :=
| Sent (resourceType : list byte) (limit : Z)
| Closed (request : nat)
| Logged (line : list byte).

Definition trace : Type := list event.

(** How a call ends: it returns, it panics (a nil dereference), or the
    process exits ([log.Fatalln]). *)
Inductive outcome (A : Type) : Type :=
| Returned (a : A)
| Panicked
| Exited.
Arguments Returned {A} a.
Arguments Panicked {A}.
Arguments Exited {A}.

Definition Go (A : Type) : Type := trace -> outcome A * trace.

Definition ret {A} (a : A) : Go A := fun w => (Returned a, w).

Definition bind {A B} (c : Go A) (f : A -> Go B) : Go B :=
  fun w =>
    match c w with
    | (Returned a, w') => f a w'
    | (Panicked, w') => (Panicked, w')
    | (Exited, w') => (Exited, w')
    end.

Definition emit (e : event) : Go unit := fun w => (Returned tt, w ++ [e]).

Definition panic {A} : Go A := fun w => (Panicked, w).

(** [log.Println(text, err)]: the operands separated by a blank. *)
Definition log_Println (line : list byte) : Go unit := emit (Logged line).

(** [log.Fatalln(err)]: log, then [os.Exit(1)]; deferred calls do not run. *)
Definition log_Fatalln {A} (line : list byte) : Go A :=
  fun w => (Exited, w ++ [Logged line]).

(** [defer d; body]: [d] runs when [body] returns or panics, not when the
    process exits. *)
Definition defer {A} (d : Go unit) (body : Go A) : Go A :=
  fun w =>
    match body w with
    | (Exited, w') => (Exited, w')
    | (o, w') => (o, snd (d w'))
    end.

(** The number of requests sent so far. *)
Fixpoint requests (w : trace) : nat :=
  match w with
  | [] => O
  | Sent _ _ :: w' => S (requests w')
  | _ :: w' => requests w'
  end.

(** The body of the response to request [n] has been closed. *)
Definition closed (n : nat) (w : trace) : Prop := In (Closed n) w.

End golang.

Import golang.

Notation "x <- c ;; k" := (bind c (fun x => k))
  (at level 100, c at next level, right associativity).
Notation "c ;;; k" := (bind c (fun _ => k))
  (at level 100, right associativity).

(** ** The [utils] package, as far as the two files use it *)

Module utils.

(** The names of the two resource types.  The values of these constants
    are not in the two files; the strings here stand for them and no
    property depends on them. *)
Definition APPLICATIONS : list byte := str "applications".
Definition IDENTITY_PROVIDERS : list byte := str "identityProviders".

(** Modelled from the spec: the constant [utils.OAUTH2], which the spec
    gives as the marker "oauth2". *)
Definition OAUTH2 : list byte := str "oauth2".

(** An HTTP response: its status code and what [ioutil.ReadAll] obtains
    from its body. *)
Record Response : Type := {
  StatusCode : Z;
  Body : list byte + error
}.

(** What [SendGetListRequest] gives back: a response, or a nil response
    and an error. *)
Definition reply : Type := (Response + error)%type.

(** A map of Go, which may be nil. *)
Definition gomap (V : Type) : Type := option (gmap (list byte) V).

Record KeywordConfigs (V : Type) : Type := {
  KeywordMappings : gomap V;
  ApplicationConfigs : gomap V;
  IdpConfigs : gomap V
}.
Arguments KeywordMappings {V} _.
Arguments ApplicationConfigs {V} _.
Arguments IdpConfigs {V} _.

Record ServerConfigs : Type := {
  ClientId : list byte
}.

End utils.

(** ** Functions of Go's libraries used by the two files *)

Module strings.

Definition is_upper (b : byte) : bool :=
  (N.leb 65 (Byte.to_N b) && N.leb (Byte.to_N b) 90)%bool.

Definition lower_byte (b : byte) : byte :=
  if is_upper b then
    match Byte.of_N (Byte.to_N b + 32) with
    | Some c => c
    | None => b
    end
  else b.

(** [strings.ToLower] on the letters A to Z.  Go lower-cases the runes
    outside ASCII as well; none of them becomes a letter of "oauth2" (the
    two whose lower case is an ASCII letter give i and k), so the comparison
    with [utils.OAUTH2] is the same. *)
Definition ToLower (s : list byte) : list byte := map lower_byte s.

Fixpoint HasPrefix (s prefix : list byte) : bool :=
  match prefix, s with
  | [], _ => true
  | p :: prefix', b :: s' => Byte.eqb p b && HasPrefix s' prefix'
  | _ :: _, [] => false
  end.

Definition HasSuffix (s suffix : list byte) : bool :=
  HasPrefix (rev s) (rev suffix).

(** [strings.TrimSuffix] *)
Definition TrimSuffix (s suffix : list byte) : list byte :=
  if HasSuffix s suffix then firstn (length s - length suffix) s else s.

End strings.

Module filepath.

(** [filepath.Ext]: the suffix that starts at the last dot of the last
    element of the path, empty when that element has no dot.  [acc] is the
    extension found in the bytes read so far. *)
Fixpoint ext_from (path : list byte) (acc : list byte) : list byte :=
  match path with
  | [] => acc
  | b :: path' =>
      if Byte.eqb b "/"%byte then ext_from path' []
      else if Byte.eqb b "."%byte then ext_from path' path
      else ext_from path' acc
  end.

Definition Ext (path : list byte) : list byte := ext_from path [].

End filepath.

Module os.

(** [os.FileInfo], of which only [Name()] is used. *)
Record FileInfo : Type := {
  Name : list byte
}.

End os.

(** [utils.SendGetListRequest]: the remote server is a function from the
    number of the request, the resource type and the limit to its reply, so
    that two requests with the same arguments may be answered differently.
    The call returns the reply together with the number of the request,
    which names the response body. *)
Definition SendGetListRequest (server : nat -> list byte -> Z -> utils.reply)
           (resourceType : list byte) (limit : Z) : Go (nat * utils.reply) :=
  fun w =>
    (Returned (requests w, server (requests w) resourceType limit),
     w ++ [Sent resourceType limit]).

(** ** Package [applications] *)

Module applications.

Record Application : Type := {
  Id : list byte;
  Name : list byte
}.

Record AppList : Type := {
  AppCount : Z;
  Applications : list Application
}.

Record AppConfig : Type := {
  ApplicationName : list byte
}.

Record InboundConfigurationProtocol_t : Type := {
  OauthConsumerSecret : list byte
}.

Record InboundAuthenticationRequestConfig_t : Type := {
  InboundAuthType : list byte;
  InboundAuthKey : list byte;
  InboundConfigurationProtocol : InboundConfigurationProtocol_t
}.

Record InboundAuthenticationConfig_t : Type := {
  InboundAuthenticationRequestConfigs : list InboundAuthenticationRequestConfig_t
}.

Record AuthConfig : Type := {
  InboundAuthenticationConfig : InboundAuthenticationConfig_t
}.

(** The zero value [AuthConfig{}]. *)
Definition AuthConfig_zero : AuthConfig :=
  {| InboundAuthenticationConfig :=
       {| InboundAuthenticationRequestConfigs := [] |} |}.

Section Lister.
(** The remote server behind [utils.SendGetListRequest]. *)
Variable server : nat -> list byte -> Z -> utils.reply.
(** [utils.ErrorCodes], a map from status codes to messages. *)
Variable ErrorCodes : gmap Z (list byte).
(** [json.Unmarshal] into an [AppList]. *)
Variable json_Unmarshal : list byte -> AppList + error.

Definition getTotalAppCount : Go (Z * option error) :=
  r <- SendGetListRequest server utils.APPLICATIONS (-1) ;;
  match r with
  | (_, inr err) =>
      ret (-1, Some (Errorf_w (str "failed to retrieve available app list. ") err))
  | (n, inl resp) =>
      defer (emit (Closed n))
        (let statusCode := utils.StatusCode resp in
         if statusCode =? 200 then
           match utils.Body resp with
           | inr err =>
               ret (-1, Some (Errorf_w (str "error when reading the retrived app list. ") err))
           | inl body =>
               match json_Unmarshal body with
               | inr err =>
                   ret (-1, Some (Errorf_w (str "error when unmarshalling the retrived app list. ") err))
               | inl list =>
                   emit (Closed n) ;;;
                   ret (AppCount list, None)
               end
           end
         else
           match ErrorCodes !! statusCode with
           | Some error =>
               ret (-1, Some (Errorf (str "error while retrieving app count. Status code: "
                                      ++ Itoa statusCode ++ str ", Error: " ++ error)))
           | None =>
               ret (-1, Some (Errorf (str "error while retrieving application count")))
           end)
  end.

(** [getAppList] has one result, the list; it has no error result.  After
    a failed request [resp] is nil, and the statement
    [defer resp.Body.Close()] dereferences it. *)
Definition getAppList : Go (list Application) :=
  r <- getTotalAppCount ;;
  let '(totalAppCount, err) := r in
  match err with
  | Some err =>
      log_Println (str "Error while retrieving application count. Retrieving only the default count."
                   ++ str " " ++ Error err)
  | None => ret tt
  end ;;;
  r <- SendGetListRequest server utils.APPLICATIONS totalAppCount ;;
  match r with
  | (_, inr err) =>
      log_Println (str "Error while retrieving application list" ++ str " " ++ Error err) ;;;
      panic
  | (n, inl resp) =>
      defer (emit (Closed n))
        (let statusCode := utils.StatusCode resp in
         if statusCode =? 200 then
           match utils.Body resp with
           | inr err => log_Fatalln (Error err)
           | inl body =>
               match json_Unmarshal body with
               | inr err => log_Fatalln (Error err)
               | inl list =>
                   emit (Closed n) ;;;
                   ret (Applications list)
               end
           end
         else
           match ErrorCodes !! statusCode with
           | Some error => log_Println error ;;; ret []
           | None =>
               log_Println (str "Error while retrieving application list") ;;;
               ret []
           end)
  end.

Definition getDeployedAppNames : Go (list (list byte)) :=
  apps <- getAppList ;;
  ret (map Name apps).
End Lister.

Section Keywords.
Context {V : Type}.
Variable KEYWORD_CONFIGS : utils.KeywordConfigs V.
(** [utils.ResolveAdvancedKeywordMapping] *)
Variable ResolveAdvancedKeywordMapping :
  list byte -> utils.gomap V -> utils.gomap V.

Definition getAppKeywordMapping (appName : list byte) : utils.gomap V :=
  match utils.ApplicationConfigs KEYWORD_CONFIGS with
  | Some _ =>
      ResolveAdvancedKeywordMapping appName
        (utils.ApplicationConfigs KEYWORD_CONFIGS)
  | None => utils.KeywordMappings KEYWORD_CONFIGS
  end.
End Keywords.

Section Auth.
(** [yaml.Unmarshal] into an [AuthConfig]. *)
Variable yaml_Unmarshal : list byte -> AuthConfig + error.
(** [utils.SERVER_CONFIGS] *)
Variable SERVER_CONFIGS : utils.ServerConfigs.
(** [ioutil.ReadFile] and [filepath.Join]. *)
Variable ReadFile : list byte -> list byte + error.
Variable Join : list byte -> list byte -> list byte.
(** [fmt.Errorf(format)] with a format computed at run time and no
    operands: what the verbs of the format, if it has any, print then. *)
Variable Sprintf : list byte -> list byte.

Definition unmarshalAuthConfig (data : list byte) : AuthConfig * option error :=
  match yaml_Unmarshal data with
  | inr err =>
      (AuthConfig_zero,
       Some (Errorf_s (str "failed to unmarshal auth config: ") (Error err)))
  | inl config => (config, None)
  end.

Fixpoint isOauthApp_loop (configs : list InboundAuthenticationRequestConfig_t)
  : bool * option error :=
  match configs with
  | [] => (false, None)
  | requestConfig :: configs' =>
      if bool_decide (strings.ToLower (InboundAuthType requestConfig) = utils.OAUTH2)
      then (true, None)
      else isOauthApp_loop configs'
  end.

Definition isOauthApp (fileData : list byte) : bool * option error :=
  match unmarshalAuthConfig fileData with
  | (_, Some err) => (false, Some err)
  | (config, None) =>
      isOauthApp_loop
        (InboundAuthenticationRequestConfigs (InboundAuthenticationConfig config))
  end.

Fixpoint isToolMgtApp_loop (file : os.FileInfo)
         (configs : list InboundAuthenticationRequestConfig_t)
  : Go (bool * option error) :=
  match configs with
  | [] => ret (false, None)
  | requestConfig :: configs' =>
      if bool_decide (InboundAuthKey requestConfig = utils.ClientId SERVER_CONFIGS)
      then
        let appName :=
          strings.TrimSuffix (os.Name file) (filepath.Ext (os.Name file)) in
        log_Println (str "Info: Tool Management App: " ++ appName
                     ++ str " is excluded from deletion.") ;;;
        ret (true, None)
      else isToolMgtApp_loop file configs'
  end.

Definition isToolMgtApp (file : os.FileInfo) (importFilePath : list byte)
  : Go (bool * option error) :=
  let appFilePath := Join importFilePath (os.Name file) in
  match ReadFile appFilePath with
  | inr err =>
      ret (false, Some (Errorf_s (str "failed to read file: ") (Error err)))
  | inl fileData =>
      match unmarshalAuthConfig fileData with
      | (_, Some err) => ret (false, Some (Errorf (Sprintf (Error err))))
      | (config, None) =>
          isToolMgtApp_loop file
            (InboundAuthenticationRequestConfigs (InboundAuthenticationConfig config))
      end
  end.

Fixpoint isOauthSecretGiven_loop
         (configs : list InboundAuthenticationRequestConfig_t)
  : bool * option error :=
  match configs with
  | [] => (false, None)
  | requestConfig :: configs' =>
      if bool_decide (strings.ToLower (InboundAuthType requestConfig) = utils.OAUTH2)
      then
        if bool_decide (OauthConsumerSecret (InboundConfigurationProtocol requestConfig) <> [])
        then (true, None)
        else isOauthSecretGiven_loop configs'
      else isOauthSecretGiven_loop configs'
  end.

Definition isOauthSecretGiven (modifiedFileData : list byte)
  : bool * option error :=
  match unmarshalAuthConfig modifiedFileData with
  | (_, Some err) => (false, Some (Errorf (Sprintf (Error err))))
  | (config, None) =>
      isOauthSecretGiven_loop
        (InboundAuthenticationRequestConfigs (InboundAuthenticationConfig config))
  end.
End Auth.

(** *** The secret masker *)

Definition label : list byte := str "oauthConsumerSecret:".
Definition null : list byte := str "null".
Arguments label : simpl never.
Arguments null : simpl never.

(** The pattern of the source as a syntax tree; with blanks added between
    its items it reads  (?m) ( ^ \s* oauthConsumerSecret: \s* ) null \s* $  *)
Definition pattern : regex :=
  Cat (Group (Cat BeginLine (Cat (Star CSpace) (Cat (Lit label) (Star CSpace)))))
      (Cat (Lit null) (Cat (Star CSpace) EndLine)).

Section Masker.
(** [utils.SENSITIVE_FIELD_MASK], a constant of the [utils] package. *)
Variable SENSITIVE_FIELD_MASK : list byte.

Definition maskOAuthConsumerSecret (fileContent : list byte) : list byte :=
  let re := pattern in
  let maskedContent :=
    ReplaceAllString re fileContent (str "${1}" ++ SENSITIVE_FIELD_MASK) in
  maskedContent.
End Masker.

End applications.

(** ** Package [identityproviders] *)

Module identityproviders.

Record identityProvider : Type := {
  Id : list byte;
  Name : list byte
}.

Record idpList : Type := {
  IdpCount : Z;
  IdentityProviders : list identityProvider
}.

Record idpConfig : Type := {
  IdentityProviderName : list byte;
  IdentityProviderId : list byte
}.

Section Lister.
Variable server : nat -> list byte -> Z -> utils.reply.
Variable ErrorCodes : gmap Z (list byte).
(** [json.Unmarshal] into an [idpList]. *)
Variable json_Unmarshal : list byte -> idpList + error.

Definition getTotalIdpCount : Go (Z * option error) :=
  r <- SendGetListRequest server utils.IDENTITY_PROVIDERS (-1) ;;
  match r with
  | (_, inr err) =>
      ret (-1, Some (Errorf_w (str "failed to retrieve available IDP list. ") err))
  | (n, inl resp) =>
      defer (emit (Closed n))
        (let statusCode := utils.StatusCode resp in
         if statusCode =? 200 then
           match utils.Body resp with
           | inr err =>
               ret (-1, Some (Errorf_w (str "error when reading the retrived IDP list. ") err))
           | inl body =>
               match json_Unmarshal body with
               | inr err =>
                   ret (-1, Some (Errorf_w (str "error when unmarshalling the retrived IDP list. ") err))
               | inl list =>
                   emit (Closed n) ;;;
                   ret (IdpCount list, None)
               end
           end
         else
           match ErrorCodes !! statusCode with
           | Some error =>
               ret (-1, Some (Errorf (str "error while retrieving IDP count. Status code: "
                                      ++ Itoa statusCode ++ str ", Error: " ++ error)))
           | None =>
               ret (-1, Some (Errorf (str "error while retrieving identity provider count")))
           end)
  end.

Definition getIdpList : Go (list identityProvider * option error) :=
  r <- getTotalIdpCount ;;
  let '(idpCount, err) := r in
  match err with
  | Some err =>
      log_Println (str "Error: when retrieving IDP count. Retrieving only the default count."
                   ++ str " " ++ Error err)
  | None => ret tt
  end ;;;
  r <- SendGetListRequest server utils.IDENTITY_PROVIDERS idpCount ;;
  match r with
  | (_, inr err) =>
      ret ([], Some (Errorf_w (str "failed to retrieve available IDP list. ") err))
  | (n, inl resp) =>
      defer (emit (Closed n))
        (let statusCode := utils.StatusCode resp in
         if statusCode =? 200 then
           match utils.Body resp with
           | inr err =>
               ret ([], Some (Errorf_w (str "error when reading the retrived IDP list. ") err))
           | inl body =>
               match json_Unmarshal body with
               | inr err =>
                   ret ([], Some (Errorf_w (str "error when unmarshalling the retrived IDP list. ") err))
               | inl list =>
                   emit (Closed n) ;;;
                   ret (IdentityProviders list, None)
               end
           end
         else
           match ErrorCodes !! statusCode with
           | Some error =>
               ret ([], Some (Errorf (str "error while retrieving IDP list. Status code: "
                                      ++ Itoa statusCode ++ str ", Error: " ++ error)))
           | None =>
               ret ([], Some (Errorf (str "error while retrieving identity provider list")))
           end)
  end.

Definition getDeployedIdpNames : Go (list (list byte)) :=
  r <- getIdpList ;;
  let '(idps, err) := r in
  match err with
  | Some _ => ret []
  | None => ret (map Name idps)
  end.
End Lister.

Section Keywords.
Context {V : Type}.
Variable KEYWORD_CONFIGS : utils.KeywordConfigs V.
Variable ResolveAdvancedKeywordMapping :
  list byte -> utils.gomap V -> utils.gomap V.

Definition getIdpKeywordMapping (idpName : list byte) : utils.gomap V :=
  match utils.IdpConfigs KEYWORD_CONFIGS with
  | Some _ =>
      ResolveAdvancedKeywordMapping idpName
        (utils.IdpConfigs KEYWORD_CONFIGS)
  | None => utils.KeywordMappings KEYWORD_CONFIGS
  end.
End Keywords.

End identityproviders.

Import applications.

(** ** Definitions used to state and prove the properties of the masker *)

Definition all_space (s : list byte) : bool := forallb is_space s.

Definition no_LF (s : list byte) : bool := forallb (fun b => negb (is_nl b)) s.

(** The longest prefix of whitespace, and what follows it. *)
Fixpoint take_space (s : list byte) : list byte :=
  match s with
  | b :: s' => if is_space b then b :: take_space s' else []
  | [] => []
  end.

Fixpoint drop_space (s : list byte) : list byte :=
  match s with
  | b :: s' => if is_space b then drop_space s' else s
  | [] => []
  end.

(** [strip p s] removes the prefix [p] from [s]. *)
Fixpoint strip (p s : list byte) : option (list byte) :=
  match p with
  | [] => Some s
  | a :: p' =>
      match s with
      | b :: s' => if Byte.eqb a b then strip p' s' else None
      | [] => None
      end
  end.

(** What the final [\s*$] of the pattern takes from [s]: the longest run of
    whitespace that ends at the end of the text or before a line feed, and
    the text after it. *)
Fixpoint trail (s : list byte) : option (list byte * list byte) :=
  match s with
  | [] => Some ([], [])
  | b :: s' =>
      if is_space b then
        match trail s' with
        | Some (w, r) => Some (b :: w, r)
        | None => if is_nl b then Some ([], s) else None
        end
      else None
  end.

(** The match of the pattern at the start of [s], read off the pattern item
    by item: the text of group 1, the whitespace after [null] and the rest
    of the input. *)
Definition scan (bl : bool) (s : list byte)
  : option (list byte * list byte * list byte) :=
  if bl then
    match strip label (drop_space s) with
    | None => None
    | Some s2 =>
        match strip null (drop_space s2) with
        | None => None
        | Some s4 =>
            match trail s4 with
            | None => None
            | Some (w, r) =>
                Some (take_space s ++ label ++ take_space s2, w, r)
            end
        end
    end
  else None.

(** Whether the position after reading [w] is at the beginning of a line. *)
Fixpoint bol_after (bl : bool) (w : list byte) : bool :=
  match w with
  | [] => bl
  | b :: w' => bol_after (is_nl b) w'
  end.

(** The thread in which a match of the pattern ends. *)
Definition match_thread (m : list byte * list byte * list byte) : thread :=
  let '(g1, w, r) := m in
  Thread (bol_after false w) (g1 ++ null ++ w) r (Some g1).

(** The masker started in the middle of a text, [bl] telling whether the
    position is at the beginning of a line. *)
Definition mask_from (MASK : list byte) (bl : bool) (s : list byte) : list byte :=
  replaceAll (S (length s)) pattern (str "${1}" ++ MASK) bl s.

Definition dollar_free (s : list byte) : bool :=
  forallb (fun b => negb (Byte.eqb b "$"%byte)) s.

(** A byte that can occur in a match of the pattern. *)
Definition plain (b : byte) : bool :=
  (is_space b || existsb (Byte.eqb b) (label ++ null))%bool.

(** The masking tokens for which idempotence is proved: no [$], no line
    feed, and a first byte that is neither whitespace nor a byte of the
    label or of [null]. *)
Definition mask_token_ok (m : list byte) : bool :=
  match m with
  | [] => false
  | h :: _ => (negb (plain h) && dollar_free m && no_LF m)%bool
  end.

Fixpoint count_nonspace (s : list byte) : nat :=
  match s with
  | [] => O
  | b :: s' => if is_space b then count_nonspace s' else S (count_nonspace s')
  end.

Definition or_else (o : option (list byte)) (d : list byte) : list byte :=
  match o with
  | Some x => x
  | None => d
  end.

(** A line that a match of the pattern can cover: whitespace, then
    possibly the label, whitespace, possibly [null], whitespace. *)
Definition pattern_line (l : list byte) : bool :=
  let l1 := drop_space l in
  let l2 := or_else (strip label l1) l1 in
  let l3 := drop_space l2 in
  let l4 := or_else (strip null l3) l3 in
  match drop_space l4 with
  | [] => true
  | _ :: _ => false
  end.

(** The texts between two line feeds of a match, or before its first or
    after its last one. *)
Definition in_L (l : list byte) : Prop :=
  exists a ol b on w,
    l = a ++ ol ++ b ++ on ++ w /\
    all_space a = true /\ all_space b = true /\ all_space w = true /\
    (ol = [] \/ ol = label) /\ (on = [] \/ on = null).

(** A line that no match can cover: it has no line feed and is not a
    [pattern_line]; in particular it is not blank. *)
Definition kept_line (l : list byte) : bool :=
  (no_LF l && negb (pattern_line l))%bool.

(** The text before a line, and the text after it, when there is one. *)
Definition before (pre : option (list byte)) : list byte :=
  match pre with
  | Some p => p ++ [LF]
  | None => []
  end.

Definition after (post : option (list byte)) : list byte :=
  match post with
  | Some p => LF :: p
  | None => []
  end.

(** A text whose first line is not blank: blanks, with no line feed among
    them, and then a byte that is not whitespace. *)
Definition first_line_not_blank (q : list byte) : bool :=
  match drop_space q with
  | [] => false
  | _ :: _ => no_LF (take_space q)
  end.

(** *** The masker as the spec words it, line by line

    The spec describes the pattern as "optional leading whitespace, literal
    field label, optional whitespace, the literal value null, end of line",
    matched once per line, with the value portion rewritten and every other
    line kept.  [mask_by_line] is that description. *)

Fixpoint lines (s : list byte) : list (list byte) :=
  match s with
  | [] => [[]]
  | b :: s' =>
      if is_nl b then [] :: lines s'
      else match lines s' with
           | l :: ls => (b :: l) :: ls
           | [] => [[b]]
           end
  end.

Fixpoint unlines (ls : list (list byte)) : list byte :=
  match ls with
  | [] => []
  | [l] => l
  | l :: ls' => l ++ LF :: unlines ls'
  end.

Definition mask_line (MASK : list byte) (l : list byte) : list byte :=
  match strip label (drop_space l) with
  | Some l2 =>
      if bool_decide (drop_space l2 = null)
      then take_space l ++ label ++ take_space l2 ++ MASK
      else l
  | None => l
  end.

Definition mask_by_line (MASK : list byte) (s : list byte) : list byte :=
  unlines (map (mask_line MASK) (lines s)).

(** *** The entries of a configuration *)

Definition entries (config : AuthConfig)
  : list InboundAuthenticationRequestConfig_t :=
  InboundAuthenticationRequestConfigs (InboundAuthenticationConfig config).

(** *** Letter-casings *)

(** [c] is the letter [d] in lower or in upper case. *)
Definition same_letter (c d : byte) : Prop :=
  c = d \/ (strings.is_upper c = true /\ strings.lower_byte c = d).

(** ** Sample collaborators, for the examples *)

Definition sample_mask : list byte := str "'********'".

(** A file with an empty line after the line of the secret. *)
Definition sample_file : list byte :=
  str "oauthConsumerSecret: null" ++ [LF; LF] ++ str "name: app".

(** A server whose first reply is a transport error and whose later
    replies are a page of three resources. *)
Definition sample_server (n : nat) (resourceType : list byte) (limit : Z)
  : utils.reply :=
  match n with
  | O => inr (NewError (str "connection reset"))
  | S _ => inl {| utils.StatusCode := 200; utils.Body := inl (str "page") |}
  end.

(** A server that refuses every request. *)
Definition unreachable_server (n : nat) (resourceType : list byte) (limit : Z)
  : utils.reply :=
  inr (NewError (str "connection refused")).

(** A server that answers every request with the status 404. *)
Definition missing_server (n : nat) (resourceType : list byte) (limit : Z)
  : utils.reply :=
  inl {| utils.StatusCode := 404; utils.Body := inl [] |}.

Definition sample_codes : gmap Z (list byte) :=
  {[ 404 := str "Not Found" ]}.

Definition sample_apps : applications.AppList :=
  {| applications.AppCount := 3;
     applications.Applications :=
       [ {| applications.Id := str "1"; applications.Name := str "console" |};
         {| applications.Id := str "2"; applications.Name := str "portal" |};
         {| applications.Id := str "3"; applications.Name := str "shop" |} ] |}.

Definition sample_idps : identityproviders.idpList :=
  {| identityproviders.IdpCount := 3;
     identityproviders.IdentityProviders :=
       [ {| identityproviders.Id := str "1"; identityproviders.Name := str "google" |};
         {| identityproviders.Id := str "2"; identityproviders.Name := str "github" |};
         {| identityproviders.Id := str "3"; identityproviders.Name := str "ldap" |} ] |}.

Definition sample_json_apps (body : list byte) : applications.AppList + error :=
  inl sample_apps.

Definition sample_json_idps (body : list byte) : identityproviders.idpList + error :=
  inl sample_idps.

(** A parser that knows one document, an OAuth2 application with a
    secret. *)
Definition sample_doc : list byte := str "inboundAuthType: OAuth2".

Definition sample_config : AuthConfig :=
  {| InboundAuthenticationConfig :=
       {| InboundAuthenticationRequestConfigs :=
            [ {| InboundAuthType := str "OAuth2";
                 InboundAuthKey := str "client-1";
                 InboundConfigurationProtocol :=
                   {| OauthConsumerSecret := str "s3cret" |} |} ] |} |}.

Definition sample_yaml (data : list byte) : AuthConfig + error :=
  if bool_decide (data = sample_doc) then inl sample_config
  else inr (NewError (str "yaml: unmarshal errors")).

Definition sample_server_configs : utils.ServerConfigs :=
  {| utils.ClientId := str "client-1" |}.

(** A file system with one file, which holds [sample_doc]. *)
Definition sample_ReadFile (path : list byte) : list byte + error :=
  if bool_decide (path = str "apps/console.yml") then inl sample_doc
  else inr (NewError (str "open: no such file or directory")).

Definition sample_Join (dir name : list byte) : list byte :=
  dir ++ str "/" ++ name.

Definition sample_keywords : utils.KeywordConfigs Z :=
  {| utils.KeywordMappings := Some {[ str "PORT" := 9443 ]};
     utils.ApplicationConfigs := None;
     utils.IdpConfigs := Some {[ str "google" := 1 ]} |}.

(** [p] occurs in [s]. *)
Fixpoint occurs (p s : list byte) : bool :=
  (strings.HasPrefix s p ||
   match s with
   | [] => false
   | _ :: s' => occurs p s'
   end)%bool.

(** A line with the label and the value [null], nothing after it. *)
Definition null_line (l : list byte) : bool :=
  (no_LF l &&
   match strip label (drop_space l) with
   | Some l2 => bool_decide (drop_space l2 = null)
   | None => false
   end)%bool.

(** A line of a tidy file: a null secret, or a line that no match can
    cover. *)
Definition tidy_line (l : list byte) : bool :=
  (kept_line l || null_line l)%bool.

(** [cause] is the error that made a request fail before a list could be
    decoded: the error of the request itself, of the reading of the body of
    a response with the status 200, or of its decoding. *)
Definition cause_of {L : Type} (r : utils.reply) (json : list byte -> L + error)
           (cause : error) : Prop :=
  r = inr cause \/
  exists resp,
    r = inl resp /\ utils.StatusCode resp = 200 /\
    (utils.Body resp = inr cause \/
     exists body, utils.Body resp = inl body /\ json body = inr cause).

(** * Properties *)

(** ** The matcher on the pattern of the masker *)

Section ScanFacts.

Lemma space_not_o (b : byte) : is_space b = true -> Byte.eqb "o" b = false.
Proof. destruct b; simpl; intros H; try discriminate H; reflexivity. Qed.

Lemma space_not_n (b : byte) : is_space b = true -> Byte.eqb "n" b = false.
Proof. destruct b; simpl; intros H; try discriminate H; reflexivity. Qed.

Lemma nl_is_space (b : byte) : is_nl b = true -> is_space b = true.
Proof.
unfold is_nl. intros H. apply byte_dec_bl in H. subst b. reflexivity.
Qed.

Lemma is_nl_true (b : byte) : is_nl b = true -> b = LF.
Proof. unfold is_nl. apply byte_dec_bl. Qed.

Lemma eqb_refl (b : byte) : Byte.eqb b b = true.
Proof. apply byte_dec_lb. reflexivity. Qed.

Lemma bol_after_app (bl : bool) (u v : list byte) :
bol_after bl (u ++ v) = bol_after (bol_after bl u) v.
Proof. revert bl. induction u as [|b u IH]; intros bl; simpl; auto. Qed.

Lemma take_drop_space (s : list byte) : take_space s ++ drop_space s = s.
Proof.
induction s as [|b s IH]; simpl; [reflexivity|].
destruct (is_space b); simpl; [now rewrite IH | reflexivity].
Qed.

Lemma take_space_all (s : list byte) : all_space (take_space s) = true.
Proof.
induction s as [|b s IH]; simpl; [reflexivity|].
destruct (is_space b) eqn:E; simpl; [now rewrite E | reflexivity].
Qed.

(** A continuation that fails on whitespace makes the greedy star take
  the whole run of whitespace. *)
Lemma star_space_skip {R : Type} (k : thread -> option R) :
(forall bl sn cp b s', is_space b = true -> k (Thread bl sn (b :: s') cp) = None) ->
forall s bl sn cp,
  star CSpace k bl sn cp s
  = k (Thread (bol_after bl (take_space s)) (sn ++ take_space s) (drop_space s) cp).
Proof.
intros Hk. induction s as [|b s IH]; intros bl sn cp; simpl.
- now rewrite app_nil_r.
- destruct (is_space b) eqn:E; simpl.
  + rewrite IH. rewrite <- app_assoc. simpl.
    destruct (k _); [reflexivity|]. now apply Hk.
  + now rewrite app_nil_r.
Qed.

Lemma run_lit {R : Type} (k : thread -> option R) (p : list byte) :
forall t,
  run (Lit p) k t
  = match strip p (rest t) with
    | Some s' => k (Thread (bol_after (bol t) p) (seen t ++ p) s' (cap t))
    | None => None
    end.
Proof.
induction p as [|a p IH]; intros [bl sn s cp]; simpl.
- now rewrite app_nil_r.
- destruct s as [|b s]; [reflexivity|].
  destruct (Byte.eqb a b) eqn:E; [|reflexivity].
  apply byte_dec_bl in E. subst b.
  rewrite IH. simpl. rewrite <- app_assoc. reflexivity.
Qed.

Lemma star_trail (s : list byte) :
forall bl sn cp,
  star CSpace (run EndLine Some) bl sn cp s
  = match trail s with
    | Some (w, r) => Some (Thread (bol_after bl w) (sn ++ w) r cp)
    | None => None
    end.
Proof.
induction s as [|b s IH]; intros bl sn cp; simpl.
- now rewrite app_nil_r.
- destruct (is_space b) eqn:E.
  + rewrite IH. destruct (trail s) as [[w r]|].
    * simpl. rewrite <- app_assoc. reflexivity.
    * destruct (is_nl b); [now rewrite app_nil_r | reflexivity].
  + destruct (is_nl b) eqn:E'; [|reflexivity].
    apply nl_is_space in E'. congruence.
Qed.

Lemma strip_label_space (b : byte) (s : list byte) :
is_space b = true -> strip label (b :: s) = None.
Proof.
intros Hb.
change (strip label (b :: s))
  with (if Byte.eqb "o" b then strip (tl label) s else None).
now rewrite space_not_o.
Qed.

Lemma strip_null_space (b : byte) (s : list byte) :
is_space b = true -> strip null (b :: s) = None.
Proof.
intros Hb.
change (strip null (b :: s))
  with (if Byte.eqb "n" b then strip (tl null) s else None).
now rewrite space_not_n.
Qed.

Lemma bol_after_label (bl : bool) : bol_after bl label = false.
Proof. reflexivity. Qed.

Lemma bol_after_null (bl : bool) : bol_after bl null = false.
Proof. reflexivity. Qed.

(** The backtracking matcher on the pattern is [scan]. *)
Lemma exec_scan (bl : bool) (s : list byte) :
exec pattern bl s = option_map match_thread (scan bl s).
Proof.
unfold exec, pattern, scan.
cbn [run bol seen rest cap]. destruct bl; [|reflexivity].
rewrite star_space_skip.
2:{ intros bl sn cp b s' Hb. rewrite run_lit. cbn [rest].
    now rewrite strip_label_space. }
rewrite run_lit. cbn [bol seen rest cap].
destruct (strip label (drop_space s)) as [s2|]; [|reflexivity].
cbn [run bol seen rest cap].
rewrite star_space_skip.
2:{ intros bl sn cp b s' Hb.
    rewrite run_lit. unfold set_cap. cbn [rest].
    now rewrite strip_null_space. }
unfold set_cap. cbn [bol seen rest cap length skipn].
rewrite run_lit. cbn [bol seen rest cap].
destruct (strip null (drop_space s2)) as [s4|]; [|reflexivity].
cbn [run bol seen rest cap].
rewrite star_trail.
destruct (trail s4) as [[w r]|]; [|reflexivity].
cbn [option_map match_thread app skipn].
rewrite bol_after_null, <- !app_assoc. reflexivity.
Qed.

End ScanFacts.

Section ScanShape.

Lemma strip_Some (p s s' : list byte) : strip p s = Some s' -> s = p ++ s'.
Proof.
revert s. induction p as [|a p IH]; intros s H; simpl in *.
- now inversion H.
- destruct s as [|b s]; [discriminate|].
  destruct (Byte.eqb a b) eqn:E; [|discriminate].
  apply byte_dec_bl in E. subst b. f_equal. now apply IH.
Qed.

Lemma strip_app (p s : list byte) : strip p (p ++ s) = Some s.
Proof.
induction p as [|a p IH]; simpl; [reflexivity|]. now rewrite eqb_refl.
Qed.

Lemma all_space_app (u v : list byte) :
all_space (u ++ v) = (all_space u && all_space v)%bool.
Proof. unfold all_space. apply forallb_app. Qed.

Lemma take_space_app (a t : list byte) :
all_space a = true -> take_space (a ++ t) = a ++ take_space t.
Proof.
induction a as [|x a IH]; simpl; [reflexivity|].
intros H. apply andb_prop in H as [Hx Ha]. rewrite Hx. now rewrite IH.
Qed.

Lemma drop_space_app (a t : list byte) :
all_space a = true -> drop_space (a ++ t) = drop_space t.
Proof.
induction a as [|x a IH]; simpl; [reflexivity|].
intros H. apply andb_prop in H as [Hx Ha]. rewrite Hx. now apply IH.
Qed.

Lemma take_space_label (t : list byte) : take_space (label ++ t) = [].
Proof. reflexivity. Qed.

Lemma drop_space_label (t : list byte) : drop_space (label ++ t) = label ++ t.
Proof. reflexivity. Qed.

Lemma take_space_null (t : list byte) : take_space (null ++ t) = [].
Proof. reflexivity. Qed.

Lemma drop_space_null (t : list byte) : drop_space (null ++ t) = null ++ t.
Proof. reflexivity. Qed.

Lemma trail_sound (s w r : list byte) :
trail s = Some (w, r) ->
s = w ++ r /\ all_space w = true /\ at_eol r = true.
Proof.
revert w r. induction s as [|b s IH]; intros w r H; simpl in H.
- inversion H. now subst.
- destruct (is_space b) eqn:E; [|discriminate].
  destruct (trail s) as [[w' r']|].
  + inversion H; subst. destruct (IH w' r eq_refl) as (-> & Hw & Hr).
    simpl. now rewrite E, Hw.
  + destruct (is_nl b) eqn:E'; [|discriminate].
    inversion H; subst. simpl. now rewrite E'.
Qed.

(** Any way of reading whitespace up to the end of a line makes the greedy
  reading succeed. *)
Lemma trail_complete (w r : list byte) :
all_space w = true -> at_eol r = true -> trail (w ++ r) <> None.
Proof.
induction w as [|x w IH]; simpl; intros Hw Hr.
- destruct r as [|b r]; simpl; [discriminate|].
  simpl in Hr. rewrite (nl_is_space _ Hr), Hr.
  destruct (trail r) as [[? ?]|]; discriminate.
- apply andb_prop in Hw as [Hx Hw]. rewrite Hx.
  destruct (trail (w ++ r)) as [[? ?]|] eqn:E; [discriminate|].
  exfalso. now apply (IH Hw Hr).
Qed.

Lemma trail_all_space (w : list byte) :
all_space w = true -> trail w = Some (w, []).
Proof.
induction w as [|x w IH]; simpl; [reflexivity|].
intros H. apply andb_prop in H as [Hx Hw]. now rewrite Hx, IH.
Qed.

(** A match of the pattern has the shape the pattern describes. *)
Lemma scan_sound (bl : bool) (s g1 w r : list byte) :
scan bl s = Some (g1, w, r) ->
bl = true /\ s = g1 ++ null ++ w ++ r /\
(exists a b, g1 = a ++ label ++ b /\ all_space a = true /\ all_space b = true) /\
all_space w = true /\ at_eol r = true.
Proof.
unfold scan. destruct bl; [|discriminate].
destruct (strip label (drop_space s)) as [s2|] eqn:E1; [|discriminate].
destruct (strip null (drop_space s2)) as [s4|] eqn:E2; [|discriminate].
destruct (trail s4) as [[w' r']|] eqn:E3; [|discriminate].
intros H. inversion H; subst. clear H.
apply strip_Some in E1, E2. apply trail_sound in E3 as (-> & Hw & Hr).
repeat split; auto.
- rewrite <- (take_drop_space s) at 1. rewrite E1.
  rewrite <- (take_drop_space s2) at 1. rewrite E2.
  now rewrite <- !app_assoc.
- exists (take_space s), (take_space s2). now rewrite !take_space_all.
Qed.

(** Conversely a text of that shape is matched, possibly with more of the
  whitespace after [null]. *)
Lemma scan_complete (a b w r : list byte) :
all_space a = true -> all_space b = true -> all_space w = true ->
at_eol r = true ->
scan true (a ++ label ++ b ++ null ++ w ++ r) <> None.
Proof.
intros Ha Hb Hw Hr. unfold scan.
rewrite drop_space_app, drop_space_label, strip_app by assumption.
rewrite drop_space_app, drop_space_null, strip_app by assumption.
destruct (trail (w ++ r)) as [[? ?]|] eqn:E; [discriminate|].
exfalso. now apply (trail_complete w r).
Qed.

Lemma scan_false (s : list byte) : scan false s = None.
Proof. reflexivity. Qed.

Lemma scan_nil (bl : bool) : scan bl [] = None.
Proof. now destruct bl. Qed.

Lemma scan_shorter (bl : bool) (s g1 w r : list byte) :
scan bl s = Some (g1, w, r) -> (length r < length s)%nat.
Proof.
intros H. apply scan_sound in H as (_ & -> & (a & b & -> & _) & _).
rewrite !length_app. change (length label) with 20%nat. lia.
Qed.

End ScanShape.

Section MaskFrom.
Variable MASK : list byte.
Hypothesis MASK_dollar_free : dollar_free MASK = true.

Lemma expand_dollar_free (m g : list byte) :
  dollar_free m = true -> expand m g = m.
Proof.
  induction m as [|b m IH]; [reflexivity|].
  intros H. simpl in H. apply andb_prop in H as [Hb Hm].
  assert (E : expand (b :: m) g = b :: expand m g).
  { destruct b; try reflexivity. discriminate Hb. }
  rewrite E, IH; auto.
Qed.

Lemma expand_template (g : list byte) :
  expand (str "${1}" ++ MASK) g = g ++ MASK.
Proof.
  change (expand (str "${1}" ++ MASK) g) with (g ++ expand MASK g).
  now rewrite expand_dollar_free.
Qed.

Lemma replaceAll_fuel (f f' : nat) :
  forall bl s,
    (length s < f)%nat -> (length s < f')%nat ->
    replaceAll f pattern (str "${1}" ++ MASK) bl s
    = replaceAll f' pattern (str "${1}" ++ MASK) bl s.
Proof.
  revert f'. induction f as [|f IH]; intros f' bl s Hf Hf'; [lia|].
  destruct f' as [|f']; [lia|].
  simpl. rewrite exec_scan.
  destruct (scan bl s) as [[[g1 w] r]|] eqn:E; simpl.
  - apply scan_shorter in E. f_equal. apply IH; lia.
  - destruct s as [|b s]; [reflexivity|]. simpl in Hf, Hf'.
    f_equal. apply IH; lia.
Qed.

(** The equation of the masker: at a match, group 1 and the token are
    written and the scan goes on after the match; elsewhere the byte is
    copied. *)
Lemma mask_from_eq (bl : bool) (s : list byte) :
  mask_from MASK bl s
  = match scan bl s with
    | Some (g1, w, r) => g1 ++ MASK ++ mask_from MASK (bol_after false w) r
    | None =>
        match s with
        | [] => []
        | b :: s' => b :: mask_from MASK (is_nl b) s'
        end
    end.
Proof.
  unfold mask_from at 1. cbn [replaceAll]. rewrite exec_scan.
  destruct (scan bl s) as [[[g1 w] r]|] eqn:E;
    cbn [option_map match_thread group_text cap bol rest].
  - rewrite expand_template, <- app_assoc. do 2 f_equal.
    apply scan_shorter in E. unfold mask_from. apply replaceAll_fuel; lia.
  - destruct s as [|b s]; reflexivity.
Qed.

Lemma mask_from_nil (bl : bool) : mask_from MASK bl [] = [].
Proof. rewrite mask_from_eq, scan_nil. reflexivity. Qed.

Lemma mask_from_false_cons (b : byte) (s : list byte) :
  mask_from MASK false (b :: s) = b :: mask_from MASK (is_nl b) s.
Proof. now rewrite mask_from_eq, scan_false. Qed.

(** The masker copies a text in which no match starts. *)
Lemma mask_from_through (q y : list byte) :
  forall bl,
    (forall q1 q2, q = q1 ++ q2 -> q2 <> [] ->
                   scan (bol_after bl q1) (q2 ++ y) = None) ->
    mask_from MASK bl (q ++ y) = q ++ mask_from MASK (bol_after bl q) y.
Proof.
  induction q as [|c q IH]; intros bl H; [reflexivity|].
  assert (H0 : scan bl (c :: q ++ y) = None)
    by (apply (H [] (c :: q)); [reflexivity | discriminate]).
  cbn [app bol_after]. rewrite mask_from_eq, H0.
  f_equal. apply IH. intros q1 q2 E Hq2.
  apply (H (c :: q1) q2); [now rewrite E | assumption].
Qed.

Lemma maskOAuthConsumerSecret_from (x : list byte) :
  maskOAuthConsumerSecret MASK x = mask_from MASK true x.
Proof. reflexivity. Qed.

End MaskFrom.

Section ByteLists.

Lemma count_nonspace_app (u v : list byte) :
count_nonspace (u ++ v) = (count_nonspace u + count_nonspace v)%nat.
Proof.
induction u as [|x u IH]; simpl; [reflexivity|].
destruct (is_space x); simpl; now rewrite IH.
Qed.

Lemma count_nonspace_space (u : list byte) :
all_space u = true -> count_nonspace u = O.
Proof.
induction u as [|x u IH]; simpl; [reflexivity|].
intros H. apply andb_prop in H as [Hx Hu]. now rewrite Hx, IH.
Qed.

Lemma bol_after_no_LF (bl : bool) (l : list byte) :
l <> [] -> no_LF l = true -> bol_after bl l = false.
Proof.
revert bl. induction l as [|x l IH]; intros bl Hne H; [congruence|].
simpl in H. apply andb_prop in H as [Hx Hl]. simpl.
destruct l as [|y l]; [now apply negb_true_iff in Hx|].
now apply IH.
Qed.

Lemma no_LF_app (u v : list byte) :
no_LF (u ++ v) = (no_LF u && no_LF v)%bool.
Proof. unfold no_LF. apply forallb_app. Qed.

End ByteLists.

(** ** Idempotence of the masker *)

Section Idempotence.
Variable MASK : list byte.
Hypothesis MASK_ok : mask_token_ok MASK = true.

Lemma MASK_parts :
  exists h m, MASK = h :: m /\ plain h = false /\
              dollar_free MASK = true /\ no_LF MASK = true.
Proof.
  unfold mask_token_ok in MASK_ok. destruct MASK as [|h m]; [discriminate|].
  apply andb_prop in MASK_ok as [H1 H3]. apply andb_prop in H1 as [H1 H2].
  exists h, m. repeat split; auto. now apply negb_true_iff.
Qed.

Lemma MASK_dollar : dollar_free MASK = true.
Proof. destruct MASK_parts as (h & m & _ & _ & H & _). exact H. Qed.

Lemma space_plain (s : list byte) :
  all_space s = true -> forallb plain s = true.
Proof.
  induction s as [|x s IH]; simpl; [reflexivity|].
  intros H. apply andb_prop in H as [Hx Hs].
  unfold plain at 1. now rewrite Hx, IH.
Qed.

Lemma match_plain (a b w : list byte) :
  all_space a = true -> all_space b = true -> all_space w = true ->
  forallb plain (a ++ label ++ b ++ null ++ w) = true.
Proof.
  intros Ha Hb Hw. rewrite !forallb_app.
  rewrite (space_plain a), (space_plain b), (space_plain w) by assumption.
  reflexivity.
Qed.

(** A text made of plain bytes that is followed by [r] ends before the
    first byte that is not plain. *)
Lemma plain_prefix (M r P q : list byte) (h : byte) :
  M ++ r = P ++ h :: q -> forallb plain M = true -> plain h = false ->
  exists l, P = M ++ l /\ r = l ++ h :: q.
Proof.
  intros E HM Hh. apply app_eq_app in E as [l [[E1 E2]|[E1 E2]]].
  - destruct l as [|x l].
    + exists []. rewrite app_nil_r in E1. simpl in E2. subst.
      now rewrite app_nil_r.
    + simpl in E2. inversion E2; subst x.
      rewrite E1, forallb_app in HM. simpl in HM.
      rewrite Hh in HM. simpl in HM. rewrite andb_false_r in HM.
      discriminate.
  - exists l. now split.
Qed.

(** The masker changes its input first at a [null], which the token
    replaces, if it changes it at all. *)
Lemma mask_from_first_change (s : list byte) :
  forall bl,
    mask_from MASK bl s = s \/
    exists P X t, s = P ++ null ++ X /\ mask_from MASK bl s = P ++ MASK ++ t.
Proof.
  induction s as [|c s IH]; intros bl.
  - left. apply mask_from_nil, MASK_dollar.
  - rewrite (mask_from_eq _ MASK_dollar).
    destruct (scan bl (c :: s)) as [[[g1 w] r]|] eqn:E.
    + right. apply scan_sound in E as (_ & E & _).
      exists g1, (w ++ r), (mask_from MASK (bol_after false w) r).
      now split.
    + destruct (IH (is_nl c)) as [H|(P & X & t & H1 & H2)].
      * left. now rewrite H.
      * right. exists (c :: P), X, t. rewrite H1 at 1. now rewrite H2.
Qed.

(** Masking the text that follows cannot create a match. *)
Lemma scan_None_masked_tail (p s : list byte) (bl bl' : bool) :
  scan bl (p ++ s) = None -> scan bl (p ++ mask_from MASK bl' s) = None.
Proof.
  intros Hnone.
  destruct (mask_from_first_change s bl') as [H|(P & X & t & H1 & H2)].
  { now rewrite H. }
  rewrite H2.
  destruct (scan bl (p ++ P ++ MASK ++ t)) as [[[g1 w] r]|] eqn:E;
    [exfalso|reflexivity].
  destruct MASK_parts as (h & m & Hm & Hh & _ & _).
  apply scan_sound in E as (-> & E & (a & b & -> & Ha & Hb) & Hw & Hr).
  rewrite Hm in E.
  assert (E' : (a ++ label ++ b ++ null ++ w) ++ r
               = (p ++ P) ++ h :: (m ++ t)).
  { rewrite <- !app_assoc. rewrite <- !app_assoc in E. cbn [app] in E.
    now rewrite <- E. }
  apply plain_prefix in E' as (l & E1 & E2); auto using match_plain.
  destruct l as [|x l].
  - subst r. simpl in Hr. apply nl_is_space in Hr.
    unfold plain in Hh. now rewrite Hr in Hh.
  - subst r. simpl in Hr.
    apply (scan_complete a b w (x :: l ++ null ++ X) Ha Hb Hw Hr).
    rewrite <- Hnone. f_equal. subst s.
    rewrite (app_assoc p P), E1, <- !app_assoc. reflexivity.
Qed.

(** No match starts inside group 1 of a match or inside the token that
    follows it. *)
Lemma no_match_inside (a b q1 q2 y : list byte) (bl : bool) :
  all_space a = true -> all_space b = true ->
  a ++ label ++ b ++ MASK = q1 ++ q2 -> q2 <> [] ->
  scan (bol_after bl q1) (q2 ++ y) = None.
Proof.
  intros Ha Hb E Hq2.
  destruct (scan (bol_after bl q1) (q2 ++ y)) as [[[g1 w] r]|] eqn:Es;
    [exfalso|reflexivity].
  destruct MASK_parts as (h & m & Hm & Hh & _ & Hnl).
  apply scan_sound in Es as (Hbol & Es & (a' & b' & -> & Ha' & Hb') & Hw & Hr).
  assert (E' : (a ++ label ++ b) ++ MASK = q1 ++ q2)
    by now rewrite <- !app_assoc.
  assert (Hin : exists l, a ++ label ++ b = q1 ++ l /\ q2 = l ++ MASK).
  { apply app_eq_app in E' as [l [[E1 E2]|[E1 E2]]].
    - exists l. now split.
    - destruct l as [|x l].
      + exists []. rewrite app_nil_r in E1. simpl in E2. subst.
        now rewrite app_nil_r.
      + exfalso. rewrite E1, bol_after_app in Hbol.
        rewrite bol_after_no_LF in Hbol; [discriminate|discriminate|].
        rewrite E2, no_LF_app in Hnl. now apply andb_prop in Hnl as [? _]. }
  destruct Hin as (l & E1 & E2). subst q2. rewrite Hm in Es.
  assert (E3 : (a' ++ label ++ b' ++ null ++ w) ++ r = l ++ h :: (m ++ y)).
  { rewrite <- !app_assoc. rewrite <- !app_assoc in Es. cbn [app] in Es.
    now rewrite <- Es. }
  apply plain_prefix in E3 as (l2 & E4 & _); auto using match_plain.
  apply (f_equal count_nonspace) in E1. rewrite E4 in E1.
  rewrite !count_nonspace_app in E1.
  rewrite (count_nonspace_space a), (count_nonspace_space b),
    (count_nonspace_space a'), (count_nonspace_space b'),
    (count_nonspace_space w) in E1 by assumption.
  change (count_nonspace label) with 20%nat in E1.
  change (count_nonspace null) with 4%nat in E1. lia.
Qed.

Lemma mask_from_idempotent (n : nat) :
  forall s b1 b2,
    (length s <= n)%nat -> (b2 = true -> b1 = true) ->
    mask_from MASK b2 (mask_from MASK b1 s) = mask_from MASK b1 s.
Proof.
  induction n as [n IH] using lt_wf_ind. intros s b1 b2 Hlen Hb.
  rewrite (mask_from_eq _ MASK_dollar b1 s).
  destruct (scan b1 s) as [[[g1 w] r]|] eqn:E.
  - pose proof (scan_shorter _ _ _ _ _ E) as Hr.
    apply scan_sound in E as (_ & _ & (a & b & -> & Ha & Hb') & _).
    destruct MASK_parts as (h & m & Hm & _ & _ & Hnl).
    rewrite <- !app_assoc.
    replace (a ++ label ++ b ++ MASK ++ mask_from MASK (bol_after false w) r)
      with ((a ++ label ++ b ++ MASK) ++ mask_from MASK (bol_after false w) r)
      by now rewrite <- !app_assoc.
    rewrite (mask_from_through _ MASK_dollar).
    2:{ intros q1 q2 Eq Hq2. now apply (no_match_inside a b). }
    f_equal.
    replace (bol_after b2 (a ++ label ++ b ++ MASK)) with false.
    2:{ rewrite !app_assoc, bol_after_app. symmetry.
        apply bol_after_no_LF; [now rewrite Hm | assumption]. }
    apply (IH (length r)); [lia | lia | discriminate].
  - destruct s as [|c s].
    + apply mask_from_nil, MASK_dollar.
    + rewrite (mask_from_eq _ MASK_dollar b2).
      replace (scan b2 (c :: mask_from MASK (is_nl c) s)) with (@None (list byte * list byte * list byte)).
      2:{ symmetry. destruct b2; [|reflexivity].
          rewrite (Hb eq_refl) in E.
          apply (scan_None_masked_tail [c] s true (is_nl c) E). }
      f_equal. simpl in Hlen. apply (IH (length s)); auto; lia.
Qed.

End Idempotence.

(** ** The lines a match can cover *)

Section PatternLines.

Lemma drop_space_all (w : list byte) : all_space w = true -> drop_space w = [].
Proof.
induction w as [|x w IH]; simpl; [reflexivity|].
intros H. apply andb_prop in H as [Hx Hw]. now rewrite Hx, IH.
Qed.

Lemma drop_space_nil_all (w : list byte) : drop_space w = [] -> all_space w = true.
Proof.
induction w as [|x w IH]; simpl; [reflexivity|].
destruct (is_space x); [auto | discriminate].
Qed.

Lemma strip_label_null (w : list byte) : strip label (null ++ w) = None.
Proof. reflexivity. Qed.

Lemma in_L_pattern_line (l : list byte) : in_L l -> pattern_line l = true.
Proof.
intros (a & ol & b & on & w & -> & Ha & Hb & Hw & [->| ->] & [->| ->]);
  unfold pattern_line; cbn [app];
  rewrite (drop_space_app a) by assumption.
- rewrite (drop_space_app b), (drop_space_all w) by assumption. reflexivity.
- rewrite (drop_space_app b), drop_space_null by assumption.
  rewrite strip_label_null. cbn [or_else].
  rewrite drop_space_null, strip_app. cbn [or_else].
  now rewrite (drop_space_all w).
- rewrite drop_space_label, strip_app. cbn [or_else].
  rewrite (drop_space_app b), (drop_space_all w) by assumption. reflexivity.
- rewrite drop_space_label, strip_app. cbn [or_else].
  rewrite (drop_space_app b), drop_space_null, strip_app by assumption.
  cbn [or_else]. now rewrite (drop_space_all w).
Qed.

Lemma in_L_space (w : list byte) : all_space w = true -> in_L w.
Proof.
intros Hw. exists w, [], [], [], []. rewrite !app_nil_r. repeat split; auto.
Qed.

Lemma in_L_match (a b w : list byte) :
all_space a = true -> all_space b = true -> all_space w = true ->
in_L (a ++ label ++ b ++ null ++ w).
Proof. intros Ha Hb Hw. exists a, label, b, null, w. repeat split; auto. Qed.

(** Where a line feed sits in a concatenation. *)
Lemma LF_in_app (u v X z : list byte) :
u ++ v = X ++ LF :: z ->
(exists u', u = X ++ LF :: u' /\ z = u' ++ v) \/
(exists X', X = u ++ X' /\ v = X' ++ LF :: z).
Proof.
intros E. apply app_eq_app in E as [l [[E1 E2]|[E1 E2]]].
- destruct l as [|x l].
  + right. exists []. rewrite app_nil_r in E1. simpl in E2. subst.
    now rewrite app_nil_r.
  + left. inversion E2; subst. now exists l.
- right. now exists l.
Qed.

Lemma no_LF_mid (X z : list byte) : no_LF (X ++ LF :: z) = false.
Proof.
rewrite no_LF_app. simpl. now rewrite andb_false_r.
Qed.

Lemma all_space_split (X z : list byte) :
all_space (X ++ LF :: z) = true -> all_space X = true /\ all_space z = true.
Proof.
rewrite all_space_app. simpl. intros H. apply andb_prop in H as [H1 H2].
now split.
Qed.

Lemma no_LF_token (o : list byte) (X u : list byte) :
o = [] \/ o = label \/ o = null -> o <> X ++ LF :: u.
Proof.
intros H E. apply (f_equal no_LF) in E. rewrite no_LF_mid in E.
destruct H as [->|[->| ->]]; discriminate E.
Qed.

(** The two sides of a line feed of such a text are such texts. *)
Lemma in_L_split (X z : list byte) : in_L (X ++ LF :: z) -> in_L X /\ in_L z.
Proof.
intros (a & ol & b & on & w & E & Ha & Hb & Hw & Hol & Hon).
symmetry in E. apply LF_in_app in E as [(a' & -> & ->)|(X1 & -> & E)].
{ apply all_space_split in Ha as [Ha1 Ha2]. split.
  - now apply in_L_space.
  - exists a', ol, b, on, w. repeat split; auto. }
apply LF_in_app in E as [(u & E & _)|(X2 & -> & E)].
{ exfalso. apply (no_LF_token ol X1 u); [tauto | assumption]. }
apply LF_in_app in E as [(b' & -> & ->)|(X3 & -> & E)].
{ apply all_space_split in Hb as [Hb1 Hb2]. split.
  - exists a, ol, X2, [], []. rewrite !app_nil_r. repeat split; auto.
  - exists b', [], [], on, w. repeat split; auto. }
apply LF_in_app in E as [(u & E & _)|(X4 & -> & E)].
{ exfalso. apply (no_LF_token on X3 u); [tauto | assumption]. }
subst w. apply all_space_split in Hw as [Hw1 Hw2]. split.
- exists a, ol, b, on, X4. repeat split; auto.
- now apply in_L_space.
Qed.

Lemma kept_line_spec (l : list byte) :
kept_line l = true -> no_LF l = true /\ ~ in_L l /\ l <> [].
Proof.
unfold kept_line. intros H. apply andb_prop in H as [H1 H2].
apply negb_true_iff in H2. split; [assumption|]. split.
- intros HL. apply in_L_pattern_line in HL. congruence.
- intros ->. discriminate H2.
Qed.

(** A line that is kept, followed by the end of a line, cannot be the start
  of a text of the pattern that ends at the end of a line. *)
Lemma kept_not_covered (line post M r : list byte) :
kept_line line = true -> at_eol post = true ->
in_L M -> at_eol r = true -> line ++ post <> M ++ r.
Proof.
intros Hk Hpost HM Hr E.
apply kept_line_spec in Hk as (Hnl & HL & _).
apply app_eq_app in E as [l [[E1 E2]|[E1 E2]]].
- destruct l as [|x l].
  + rewrite app_nil_r in E1. now subst.
  + subst r. simpl in Hr. apply is_nl_true in Hr. subst x line.
    now rewrite no_LF_mid in Hnl.
- destruct l as [|x l].
  + rewrite app_nil_r in E1. now subst.
  + subst post. simpl in Hpost. apply is_nl_true in Hpost. subst x M.
    now apply in_L_split in HM as [HM _].
Qed.

Lemma scan_kept (bl : bool) (line post : list byte) :
kept_line line = true -> at_eol post = true ->
scan bl (line ++ post) = None.
Proof.
intros Hk Hpost.
destruct (scan bl (line ++ post)) as [[[g1 w] r]|] eqn:E; [exfalso|reflexivity].
apply scan_sound in E as (_ & E & (a & b & -> & Ha & Hb) & Hw & Hr).
apply (kept_not_covered line post (a ++ label ++ b ++ null ++ w) r);
  auto using in_L_match.
rewrite E, <- !app_assoc. reflexivity.
Qed.

Lemma trail_kept (line post : list byte) :
kept_line line = true -> at_eol post = true -> trail (line ++ post) = None.
Proof.
intros Hk Hpost.
destruct (trail (line ++ post)) as [[w r]|] eqn:E; [exfalso|reflexivity].
apply trail_sound in E as (E & Hw & Hr).
now apply (kept_not_covered line post w r); auto using in_L_space.
Qed.

Lemma trail_None_app (s x : list byte) : trail s = None -> trail (s ++ x) = None.
Proof.
induction s as [|b s IH]; simpl; [discriminate|].
destruct (is_space b); [|reflexivity].
destruct (trail s) as [[? ?]|]; [discriminate|].
rewrite IH by reflexivity. now destruct (is_nl b).
Qed.

(** The whitespace taken after [null] does not change when the text goes
  on with a line feed and a text that does not start with a blank
  line. *)
Lemma trail_extend (s w r t : list byte) :
trail s = Some (w, r) -> trail t = None ->
trail (s ++ LF :: t) = Some (w, r ++ LF :: t).
Proof.
intros H Ht. revert w r H.
induction s as [|b s IH]; intros w r H; simpl in H.
- inversion H; subst. simpl. now rewrite Ht.
- cbn [app trail]. destruct (is_space b); [|discriminate].
  destruct (trail s) as [[w1 r1]|] eqn:E.
  + inversion H; subst. now rewrite (IH w1 r eq_refl).
  + rewrite (trail_None_app _ _ E).
    destruct (is_nl b); [|discriminate]. now inversion H; subst.
Qed.

Lemma scan_inv (bl : bool) (s g1 w r : list byte) :
scan bl s = Some (g1, w, r) ->
exists a b s4,
  bl = true /\ all_space a = true /\ all_space b = true /\
  g1 = a ++ label ++ b /\ s = a ++ label ++ b ++ null ++ s4 /\
  trail s4 = Some (w, r).
Proof.
unfold scan. destruct bl; [|discriminate].
destruct (strip label (drop_space s)) as [s2|] eqn:E1; [|discriminate].
destruct (strip null (drop_space s2)) as [s4|] eqn:E2; [|discriminate].
destruct (trail s4) as [[w' r']|] eqn:E3; [|discriminate].
intros H. inversion H; subst. clear H.
apply strip_Some in E1, E2.
exists (take_space s), (take_space s2), s4.
rewrite !take_space_all. repeat split; auto.
rewrite <- (take_drop_space s) at 1. rewrite E1.
rewrite <- (take_drop_space s2) at 1. rewrite E2.
reflexivity.
Qed.

Lemma scan_shape (a b s4 : list byte) :
all_space a = true -> all_space b = true ->
scan true (a ++ label ++ b ++ null ++ s4)
= match trail s4 with
  | Some (w, r) => Some (a ++ label ++ b, w, r)
  | None => None
  end.
Proof.
intros Ha Hb. unfold scan.
rewrite drop_space_app, drop_space_label, strip_app by assumption.
rewrite drop_space_app, drop_space_null, strip_app by assumption.
rewrite (take_space_app a), take_space_label, app_nil_r by assumption.
rewrite (take_space_app b), take_space_null, app_nil_r by assumption.
reflexivity.
Qed.

Lemma scan_extend_Some (bl : bool) (pre g1 w r t : list byte) :
scan bl pre = Some (g1, w, r) -> trail t = None ->
scan bl (pre ++ LF :: t) = Some (g1, w, r ++ LF :: t).
Proof.
intros H Ht.
apply scan_inv in H as (a & b & s4 & -> & Ha & Hb & -> & -> & H).
replace ((a ++ label ++ b ++ null ++ s4) ++ LF :: t)
  with (a ++ label ++ b ++ null ++ (s4 ++ LF :: t))
  by now rewrite <- !app_assoc.
rewrite scan_shape by assumption.
now rewrite (trail_extend _ _ _ _ H Ht).
Qed.

Lemma at_eol_app_LF (l t : list byte) : at_eol (l ++ LF :: t) = true -> at_eol l = true.
Proof. destruct l as [|x l]; simpl; auto. Qed.

Lemma scan_extend_None (bl : bool) (pre line post : list byte) :
scan bl pre = None -> kept_line line = true -> at_eol post = true ->
scan bl (pre ++ LF :: line ++ post) = None.
Proof.
intros Hnone Hk Hpost.
destruct (scan bl (pre ++ LF :: line ++ post)) as [[[g1 w] r]|] eqn:E;
  [exfalso|reflexivity].
apply scan_sound in E as (-> & E & (a & b & -> & Ha & Hb) & Hw & Hr).
assert (E' : pre ++ LF :: line ++ post = (a ++ label ++ b ++ null ++ w) ++ r)
  by now rewrite E, <- !app_assoc.
clear E. apply app_eq_app in E' as [l [[E1 E2]|[E1 E2]]].
- (* the match ends inside [pre] *)
  subst r. apply at_eol_app_LF in Hr.
  apply (scan_complete a b w l Ha Hb Hw Hr).
  rewrite <- Hnone, E1, <- !app_assoc. reflexivity.
- destruct l as [|x l].
  + rewrite app_nil_r in E1.
    apply (scan_complete a b w [] Ha Hb Hw eq_refl).
    rewrite <- Hnone, <- E1, app_nil_r. reflexivity.
  + (* the match goes on after the line feed *)
    inversion E2; subst x. clear E2.
    assert (HL : in_L l).
    { pose proof (in_L_match a b w Ha Hb Hw) as HM. rewrite E1 in HM.
      now apply in_L_split in HM as [_ HM]. }
    now apply (kept_not_covered line post l r).
Qed.

End PatternLines.

(** ** The frame of the masker *)

Section Frame.
Variable MASK : list byte.
Hypothesis MASK_dollar_free : dollar_free MASK = true.

(** A kept line is copied, and the scan goes on after it. *)
Lemma mask_from_kept (line post : list byte) :
  kept_line line = true -> at_eol post = true ->
  mask_from MASK true (line ++ post) = line ++ mask_from MASK false post.
Proof.
  intros Hk Hpost.
  pose proof (kept_line_spec _ Hk) as (Hnl & _ & Hne).
  rewrite (mask_from_through _ MASK_dollar_free).
  - now rewrite bol_after_no_LF.
  - intros q1 q2 E Hq2. destruct q1 as [|c q1].
    + simpl in E. subst q2. now apply scan_kept.
    + rewrite bol_after_no_LF; [reflexivity | discriminate |].
      rewrite E, no_LF_app in Hnl. now apply andb_prop in Hnl as [? _].
Qed.

(** What comes before a kept line is masked as if it stood alone. *)
Lemma mask_from_before_kept (line post : list byte) :
  kept_line line = true -> at_eol post = true ->
  forall n pre bl,
    (length pre <= n)%nat ->
    mask_from MASK bl (pre ++ LF :: line ++ post)
    = mask_from MASK bl pre ++ LF :: mask_from MASK true (line ++ post).
Proof.
  intros Hk Hpost. induction n as [n IH] using lt_wf_ind.
  intros pre bl Hlen.
  rewrite (mask_from_eq _ MASK_dollar_free bl pre),
  (mask_from_eq _ MASK_dollar_free bl (pre ++ _)).
  destruct (scan bl pre) as [[[g1 w] r]|] eqn:E.
  - rewrite (scan_extend_Some _ _ _ _ _ _ E (trail_kept _ _ Hk Hpost)).
    apply scan_shorter in E.
    rewrite (IH (length r)) by lia. now rewrite <- !app_assoc.
  - rewrite (scan_extend_None _ _ _ _ E Hk Hpost).
    destruct pre as [|c pre]; [reflexivity|].
    cbn [app]. simpl in Hlen. rewrite (IH (length pre)) by lia.
    reflexivity.
Qed.

Lemma mask_from_after (post : option (list byte)) :
  mask_from MASK false (after post)
  = after (option_map (mask_from MASK true) post).
Proof.
  destruct post as [p|]; simpl.
  - now rewrite mask_from_false_cons.
  - now apply mask_from_nil.
Qed.

Lemma at_eol_after (post : option (list byte)) : at_eol (after post) = true.
Proof. now destruct post. Qed.

(** The masker leaves a kept line as it is, wherever it stands. *)
Lemma mask_kept_line (pre post : option (list byte)) (line : list byte) :
  kept_line line = true ->
  maskOAuthConsumerSecret MASK (before pre ++ line ++ after post)
  = before (option_map (maskOAuthConsumerSecret MASK) pre)
    ++ line ++ after (option_map (maskOAuthConsumerSecret MASK) post).
Proof.
  intros Hk. rewrite maskOAuthConsumerSecret_from.
  destruct pre as [p|]; cbn [before option_map app].
  - rewrite <- app_assoc. cbn [app].
    rewrite (mask_from_before_kept _ _ Hk (at_eol_after post) (length p))
      by lia.
    rewrite mask_from_kept by auto using at_eol_after.
    rewrite mask_from_after, <- app_assoc. reflexivity.
  - rewrite mask_from_kept by auto using at_eol_after.
    now rewrite mask_from_after.
Qed.

(** A line with the label and a value that is neither empty nor [null]
    is a kept line. *)
Lemma valued_line_kept (a b v : list byte) (c : byte) (v' : list byte) :
  all_space a = true -> all_space b = true ->
  no_LF a = true -> no_LF b = true -> no_LF v = true ->
  v = c :: v' -> is_space c = false ->
  (forall w, all_space w = true -> v <> null ++ w) ->
  kept_line (a ++ label ++ b ++ v) = true.
Proof.
  intros Ha Hb Hna Hnb Hnv Ev Hc Hv. unfold kept_line.
  rewrite !no_LF_app, Hna, Hnb, Hnv. change (no_LF label) with true.
  cbn [andb]. apply negb_true_iff. unfold pattern_line.
  rewrite drop_space_app, drop_space_label, strip_app by assumption.
  cbn [or_else]. rewrite drop_space_app by assumption.
  assert (Ed : drop_space v = v) by (subst v; simpl; now rewrite Hc).
  rewrite Ed.
  destruct (strip null v) as [v2|] eqn:E; cbn [or_else].
  - apply strip_Some in E.
    destruct (drop_space v2) eqn:E2; [|reflexivity].
    exfalso. apply (Hv v2); [now apply drop_space_nil_all | assumption].
  - rewrite Ed. now subst v.
Qed.

(** A single match: the token takes the place of [null], and the
    whitespace after [null] goes. *)
Lemma mask_match (a b w : list byte) :
  all_space a = true -> all_space b = true -> all_space w = true ->
  maskOAuthConsumerSecret MASK (a ++ label ++ b ++ null ++ w)
  = a ++ label ++ b ++ MASK.
Proof.
  intros Ha Hb Hw. rewrite maskOAuthConsumerSecret_from, (mask_from_eq _ MASK_dollar_free).
  rewrite scan_shape, trail_all_space by assumption.
  rewrite mask_from_nil by assumption.
  now rewrite app_nil_r, <- !app_assoc.
Qed.

(** An input in which the pattern has no match is returned as it is. *)
Lemma mask_from_no_match (s : list byte) :
  forall bl,
    (forall p a b w r,
        s = p ++ a ++ label ++ b ++ null ++ w ++ r ->
        bol_after bl p = true ->
        all_space a = true -> all_space b = true -> all_space w = true ->
        at_eol r = true -> False) ->
    mask_from MASK bl s = s.
Proof.
  induction s as [|c s IH]; intros bl H.
  - now apply mask_from_nil.
  - rewrite (mask_from_eq _ MASK_dollar_free).
    destruct (scan bl (c :: s)) as [[[g1 w] r]|] eqn:E.
    + exfalso.
      apply scan_sound in E as (-> & E & (a & b & -> & Ha & Hb) & Hw & Hr).
      apply (H [] a b w r); auto. now rewrite E, <- !app_assoc.
    + f_equal. apply IH. intros p a b w r E' Hp Ha Hb Hw Hr.
      apply (H (c :: p) a b w r); auto. now rewrite E'.
Qed.

End Frame.

(** ** The claims about the masker *)

(** The scenario of the spec: a file with an OAuth2 entry and a [null]
    secret; after masking, the line of the secret reads the token. *)
Example mask_scenario :
  maskOAuthConsumerSecret sample_mask
    (str "  inboundAuthType: OAuth2" ++ [LF]
     ++ str "    oauthConsumerSecret: null" ++ [LF]
     ++ str "  name: app")
  = str "  inboundAuthType: OAuth2" ++ [LF]
    ++ str "    oauthConsumerSecret: '********'" ++ [LF]
    ++ str "  name: app".
Proof. reflexivity. Qed.

(** A secret that is already there is not touched. *)
Example mask_keeps_secret :
  maskOAuthConsumerSecret sample_mask (str "oauthConsumerSecret: s3cret")
  = str "oauthConsumerSecret: s3cret".
Proof. reflexivity. Qed.

(** The whitespace between the label and [null] may hold a line feed, and
    the blanks after [null] are dropped. *)
Example mask_value_on_next_line :
  maskOAuthConsumerSecret sample_mask
    (str "oauthConsumerSecret:" ++ [LF] ++ str "  null  ")
  = str "oauthConsumerSecret:" ++ [LF] ++ str "  '********'".
Proof. reflexivity. Qed.

(** C3.  The masker does not leave every line without a match as it is.
    The empty second line of [sample_file] matches nothing, yet the masker
    removes it: the whitespace class of the pattern takes line feeds, so
    the whitespace that the pattern allows after [null] runs over the line
    feeds and the blank lines that follow, and the replacement, which puts
    back the first group only, drops them.  Replacing the value of the
    secret and nothing else, which is what the comment in the source says
    the function does and what [mask_by_line] computes, keeps the three
    lines of the file. *)
Lemma mask_drops_blank_line :
  maskOAuthConsumerSecret sample_mask sample_file
  = str "oauthConsumerSecret: '********'" ++ [LF] ++ str "name: app" /\
  mask_by_line sample_mask sample_file
  = str "oauthConsumerSecret: '********'" ++ [LF; LF] ++ str "name: app" /\
  maskOAuthConsumerSecret sample_mask sample_file
  <> mask_by_line sample_mask sample_file.
Proof.
  split; [reflexivity|]. split; [reflexivity|].
  vm_compute. discriminate.
Qed.

(** C7.  The masker is idempotent, for every input, when the masking token
    has no [$] and no line feed and starts with a byte that is neither
    whitespace nor a byte of the label or of [null]. *)
Theorem mask_idempotent (MASK : list byte) (Hok : mask_token_ok MASK = true)
        (x : list byte) :
  maskOAuthConsumerSecret MASK (maskOAuthConsumerSecret MASK x)
  = maskOAuthConsumerSecret MASK x.
Proof.
  rewrite !maskOAuthConsumerSecret_from.
  apply (mask_from_idempotent MASK Hok (length x)); auto.
Qed.

Lemma mask_idempotent_witness :
  mask_token_ok sample_mask = true /\
  maskOAuthConsumerSecret sample_mask
    (maskOAuthConsumerSecret sample_mask sample_file)
  = maskOAuthConsumerSecret sample_mask sample_file.
Proof.
  split; [reflexivity|].
  apply (mask_idempotent sample_mask eq_refl sample_file).
Defined.

(** ** The resource lister *)

Section ListerFacts.

Lemma requests_app (w1 w2 : trace) :
requests (w1 ++ w2) = (requests w1 + requests w2)%nat.
Proof.
induction w1 as [|e w1 IH]; simpl; [reflexivity|].
destruct e; simpl; now rewrite IH.
Qed.

Lemma requests_logged (w : trace) (line : list byte) :
requests (w ++ [Logged line]) = requests w.
Proof. rewrite requests_app. simpl. lia. Qed.

Ltac finish_count :=
cbn [snd fst];
eexists _, _, _; split; [reflexivity|];
split; [intros H; (reflexivity || congruence)
       | rewrite ?requests_app; simpl; lia].

(** The count request never panics and never exits; when it fails, the
  count it returns is -1. *)
Lemma getTotalAppCount_returns server codes json (w : trace) :
exists c err w',
  applications.getTotalAppCount server codes json w = (Returned (c, err), w') /\
  (err <> None -> c = -1) /\
  requests w' = S (requests w).
Proof.
unfold applications.getTotalAppCount, SendGetListRequest, bind, defer, emit, ret.
destruct (server (requests w) utils.APPLICATIONS (-1)) as [resp|e];
  [|finish_count].
destruct (utils.StatusCode resp =? 200).
- destruct (utils.Body resp) as [body|e]; [|finish_count].
  destruct (json body) as [lst|e]; finish_count.
- destruct (codes !! utils.StatusCode resp); finish_count.
Qed.

Lemma getTotalIdpCount_returns server codes json (w : trace) :
exists c err w',
  identityproviders.getTotalIdpCount server codes json w = (Returned (c, err), w') /\
  (err <> None -> c = -1) /\
  requests w' = S (requests w).
Proof.
unfold identityproviders.getTotalIdpCount, SendGetListRequest, bind, defer, emit, ret.
destruct (server (requests w) utils.IDENTITY_PROVIDERS (-1)) as [resp|e];
  [|finish_count].
destruct (utils.StatusCode resp =? 200).
- destruct (utils.Body resp) as [body|e]; [|finish_count].
  destruct (json body) as [lst|e]; finish_count.
- destruct (codes !! utils.StatusCode resp); finish_count.
Qed.

End ListerFacts.

(** ** The claims about the resource lister *)

(** C1.  For applications and for identity providers: when the count
    request fails, the list function logs the failure and sends the list
    request all the same, with the limit -1 that the failed count left, which
    asks the server for its default page; when that request is answered
    with the status 200 and a body that decodes to a list, the function
    returns the items of that list, and no error. *)
Theorem count_failure_falls_back
        (server : nat -> list byte -> Z -> utils.reply)
        (codes : gmap Z (list byte))
        (json_apps : list byte -> applications.AppList + error)
        (json_idps : list byte -> identityproviders.idpList + error)
        (w0 : trace) :
  (forall c e w1 resp body lst,
      applications.getTotalAppCount server codes json_apps w0
      = (Returned (c, Some e), w1) ->
      server (requests w1) utils.APPLICATIONS (-1) = inl resp ->
      utils.StatusCode resp = 200 -> utils.Body resp = inl body ->
      json_apps body = inl lst ->
      applications.getAppList server codes json_apps w0
      = (Returned (applications.Applications lst),
         w1 ++ [Logged (str "Error while retrieving application count. Retrieving only the default count."
                        ++ str " " ++ Error e);
                Sent utils.APPLICATIONS (-1);
                Closed (requests w1); Closed (requests w1)])) /\
  (forall c e w1 resp body lst,
      identityproviders.getTotalIdpCount server codes json_idps w0
      = (Returned (c, Some e), w1) ->
      server (requests w1) utils.IDENTITY_PROVIDERS (-1) = inl resp ->
      utils.StatusCode resp = 200 -> utils.Body resp = inl body ->
      json_idps body = inl lst ->
      identityproviders.getIdpList server codes json_idps w0
      = (Returned (identityproviders.IdentityProviders lst, None),
         w1 ++ [Logged (str "Error: when retrieving IDP count. Retrieving only the default count."
                        ++ str " " ++ Error e);
                Sent utils.IDENTITY_PROVIDERS (-1);
                Closed (requests w1); Closed (requests w1)])).
Proof.
  split; intros c e w1 resp body lst Hcount Hreply Hstatus Hbody Hjson.
  - destruct (getTotalAppCount_returns server codes json_apps w0)
      as (c' & err & w' & Hc & Hminus & _).
    rewrite Hcount in Hc. inversion Hc; subst c' err w'. clear Hc.
    rewrite (Hminus ltac:(discriminate)) in Hcount.
    unfold applications.getAppList, bind at 1. rewrite Hcount.
    unfold bind, log_Println, emit, SendGetListRequest, defer, ret.
    rewrite requests_logged, Hreply, Hstatus, Hbody, Hjson.
    cbn [Z.eqb Pos.eqb snd]. now rewrite <- !app_assoc.
  - destruct (getTotalIdpCount_returns server codes json_idps w0)
      as (c' & err & w' & Hc & Hminus & _).
    rewrite Hcount in Hc. inversion Hc; subst c' err w'. clear Hc.
    rewrite (Hminus ltac:(discriminate)) in Hcount.
    unfold identityproviders.getIdpList, bind at 1. rewrite Hcount.
    unfold bind, log_Println, emit, SendGetListRequest, defer, ret.
    rewrite requests_logged, Hreply, Hstatus, Hbody, Hjson.
    cbn [Z.eqb Pos.eqb snd]. now rewrite <- !app_assoc.
Qed.

Lemma count_failure_falls_back_witness :
  applications.getAppList sample_server sample_codes sample_json_apps []
  = (Returned (applications.Applications sample_apps),
     [Sent utils.APPLICATIONS (-1)]
       ++ [Logged (str "Error while retrieving application count. Retrieving only the default count."
                   ++ str " "
                   ++ Error (Errorf_w (str "failed to retrieve available app list. ")
                                      (NewError (str "connection reset"))));
           Sent utils.APPLICATIONS (-1); Closed 1%nat; Closed 1%nat]).
Proof.
  apply (proj1 (count_failure_falls_back sample_server sample_codes
                  sample_json_apps sample_json_idps []))
    with (c := -1)
         (resp := {| utils.StatusCode := 200; utils.Body := inl (str "page") |})
         (body := str "page");
    reflexivity.
Defined.

(** The list function of the identity providers never panics and never
    exits: it returns a list and possibly an error. *)
Lemma getIdpList_returns server codes json (w : trace) :
  exists idps err w',
    identityproviders.getIdpList server codes json w = (Returned (idps, err), w').
Proof.
  destruct (getTotalIdpCount_returns server codes json w)
    as (c & err & w1 & Hc & _ & _).
  unfold identityproviders.getIdpList, bind at 1. rewrite Hc.
  unfold bind, log_Println, emit, SendGetListRequest, defer, ret.
  destruct err as [e|]; cbn [fst snd].
  - destruct (server _ utils.IDENTITY_PROVIDERS c) as [resp|e']; [|eauto].
    destruct (utils.StatusCode resp =? 200).
    + destruct (utils.Body resp) as [body|e']; [|eauto].
      destruct (json body) as [lst|e']; eauto.
    + destruct (codes !! utils.StatusCode resp); eauto.
  - destruct (server _ utils.IDENTITY_PROVIDERS c) as [resp|e']; [|eauto].
    destruct (utils.StatusCode resp =? 200).
    + destruct (utils.Body resp) as [body|e']; [|eauto].
      destruct (json body) as [lst|e']; eauto.
    + destruct (codes !! utils.StatusCode resp); eauto.
Qed.

(** For the identity providers a failed list request is reported: a
    transport error is wrapped, and a status other than 200 gives an error
    with, for a code of [utils.ErrorCodes], the code and its message. *)
Lemma getIdpList_reports_failure server codes json (w0 w1 : trace) c err0 :
  identityproviders.getTotalIdpCount server codes json w0
  = (Returned (c, err0), w1) ->
  (forall e,
      server (requests w1) utils.IDENTITY_PROVIDERS c = inr e ->
      exists err,
        fst (identityproviders.getIdpList server codes json w0)
        = Returned ([], Some err) /\ Unwrap err = Some e) /\
  (forall resp msg,
      server (requests w1) utils.IDENTITY_PROVIDERS c = inl resp ->
      utils.StatusCode resp <> 200 ->
      codes !! utils.StatusCode resp = Some msg ->
      fst (identityproviders.getIdpList server codes json w0)
      = Returned ([], Some (Errorf (str "error while retrieving IDP list. Status code: "
                                    ++ Itoa (utils.StatusCode resp)
                                    ++ str ", Error: " ++ msg)))).
Proof.
  intros Hc. split.
  - intros e He.
    exists (Errorf_w (str "failed to retrieve available IDP list. ") e).
    split; [|reflexivity].
    unfold identityproviders.getIdpList, bind at 1. rewrite Hc.
    unfold bind, log_Println, emit, SendGetListRequest, defer, ret.
    destruct err0; cbn [fst snd]; rewrite ?requests_logged, He; reflexivity.
  - intros resp msg Hresp Hstatus Hmsg.
    unfold identityproviders.getIdpList, bind at 1. rewrite Hc.
    unfold bind, log_Println, emit, SendGetListRequest, defer, ret.
    apply Z.eqb_neq in Hstatus.
    destruct err0; cbn [fst snd];
      rewrite ?requests_logged, Hresp, Hstatus, Hmsg; reflexivity.
Qed.

(** C4 fails for the applications.  [getAppList] has no error result: when
    the list request is answered with the status 404 it logs the message of
    the code and returns the empty list, which its caller cannot tell from
    a server without applications.  The list function of the identity
    providers returns an error at the same replies. *)
Theorem getAppList_swallows_status_failure
        (json_apps : list byte -> applications.AppList + error)
        (json_idps : list byte -> identityproviders.idpList + error) :
  applications.getAppList missing_server sample_codes json_apps []
  = (Returned [],
     [Sent utils.APPLICATIONS (-1); Closed 0%nat;
      Logged (str "Error while retrieving application count. Retrieving only the default count. error while retrieving app count. Status code: 404, Error: Not Found");
      Sent utils.APPLICATIONS (-1);
      Logged (str "Not Found"); Closed 1%nat]) /\
  fst (identityproviders.getIdpList missing_server sample_codes json_idps [])
  = Returned ([], Some (Errorf (str "error while retrieving IDP list. Status code: 404, Error: Not Found"))).
Proof. split; reflexivity. Qed.

(** C5 fails for the applications.  When the list request fails,
    [SendGetListRequest] returns a nil response; [getAppList] logs the error
    and goes on to [defer resp.Body.Close()], which dereferences the nil
    response: the call panics.  The list function of the identity providers
    returns the error before that statement. *)
Theorem getAppList_nil_response_panics
        (codes : gmap Z (list byte))
        (json_apps : list byte -> applications.AppList + error)
        (json_idps : list byte -> identityproviders.idpList + error) :
  fst (applications.getAppList unreachable_server codes json_apps [])
  = Panicked /\
  fst (identityproviders.getIdpList unreachable_server codes json_idps [])
  = Returned ([], Some (Errorf_w (str "failed to retrieve available IDP list. ")
                                 (NewError (str "connection refused")))).
Proof. split; reflexivity. Qed.

(** Whenever the list request of the applications fails, the call
    panics. *)
Lemma getAppList_panics server codes json (w0 w1 : trace) c err0 e :
  applications.getTotalAppCount server codes json w0 = (Returned (c, err0), w1) ->
  server (requests w1) utils.APPLICATIONS c = inr e ->
  fst (applications.getAppList server codes json w0) = Panicked.
Proof.
  intros Hc He.
  unfold applications.getAppList, bind at 1. rewrite Hc.
  unfold bind, log_Println, emit, SendGetListRequest, defer, ret, panic.
  destruct err0; cbn [fst snd]; rewrite ?requests_logged, He; reflexivity.
Qed.

(** On the paths of the other three functions every response body is
    closed: after a call that was answered with a response, the trace holds
    the closing of its body. *)
Lemma getTotalAppCount_closes server codes json (w w' : trace) r resp :
  applications.getTotalAppCount server codes json w = (Returned r, w') ->
  server (requests w) utils.APPLICATIONS (-1) = inl resp ->
  closed (requests w) w'.
Proof.
  unfold applications.getTotalAppCount, SendGetListRequest, bind, defer, emit, ret, closed.
  intros H Hresp. rewrite Hresp in H.
  destruct (utils.StatusCode resp =? 200).
  - destruct (utils.Body resp) as [body|e].
    + destruct (json body) as [lst|e]; cbn [fst snd] in H; inversion H;
        rewrite !in_app_iff; simpl; auto.
    + cbn [fst snd] in H. inversion H. rewrite !in_app_iff. simpl. auto.
  - destruct (codes !! utils.StatusCode resp); cbn [fst snd] in H; inversion H;
      rewrite !in_app_iff; simpl; auto.
Qed.

Lemma getTotalIdpCount_closes server codes json (w w' : trace) r resp :
  identityproviders.getTotalIdpCount server codes json w = (Returned r, w') ->
  server (requests w) utils.IDENTITY_PROVIDERS (-1) = inl resp ->
  closed (requests w) w'.
Proof.
  unfold identityproviders.getTotalIdpCount, SendGetListRequest, bind, defer, emit, ret, closed.
  intros H Hresp. rewrite Hresp in H.
  destruct (utils.StatusCode resp =? 200).
  - destruct (utils.Body resp) as [body|e].
    + destruct (json body) as [lst|e]; cbn [fst snd] in H; inversion H;
        rewrite !in_app_iff; simpl; auto.
    + cbn [fst snd] in H. inversion H. rewrite !in_app_iff. simpl. auto.
  - destruct (codes !! utils.StatusCode resp); cbn [fst snd] in H; inversion H;
      rewrite !in_app_iff; simpl; auto.
Qed.

Lemma getIdpList_closes server codes json (w0 w1 w' : trace) c err0 r resp :
  identityproviders.getTotalIdpCount server codes json w0
  = (Returned (c, err0), w1) ->
  identityproviders.getIdpList server codes json w0 = (Returned r, w') ->
  server (requests w1) utils.IDENTITY_PROVIDERS c = inl resp ->
  closed (requests w1) w'.
Proof.
  intros Hc H Hresp. unfold closed.
  unfold identityproviders.getIdpList, bind at 1 in H. rewrite Hc in H.
  unfold bind, log_Println, emit, SendGetListRequest, defer, ret in H.
  destruct err0; cbn [fst snd] in H;
    rewrite ?requests_logged, Hresp in H;
    (destruct (utils.StatusCode resp =? 200);
     [ destruct (utils.Body resp) as [body|?];
       [ destruct (json body) as [lst|?] | ]
     | destruct (codes !! utils.StatusCode resp) ]);
    cbn [fst snd] in H; inversion H; rewrite !in_app_iff; simpl; auto.
Qed.

(** C10.  [getDeployedIdpNames] always returns, never panics or exits, and
    has no error result: when [getIdpList] returns an error it returns
    the empty sequence, and otherwise the names of the identity providers
    in the order of the list. *)
Theorem getDeployedIdpNames_total
        (server : nat -> list byte -> Z -> utils.reply)
        (codes : gmap Z (list byte))
        (json : list byte -> identityproviders.idpList + error)
        (w : trace) :
  exists idps err w',
    identityproviders.getIdpList server codes json w = (Returned (idps, err), w') /\
    identityproviders.getDeployedIdpNames server codes json w
    = (Returned (match err with
                 | Some _ => []
                 | None => map identityproviders.Name idps
                 end), w').
Proof.
  destruct (getIdpList_returns server codes json w) as (idps & err & w' & H).
  exists idps, err, w'. split; [assumption|].
  unfold identityproviders.getDeployedIdpNames, bind. rewrite H.
  now destruct err.
Qed.

(** ** The claims about the classifiers, the guard and the resolver *)

Section AuthFacts.
Variable yaml_Unmarshal : list byte -> AuthConfig + error.

Lemma isOauthApp_loop_spec (configs : list InboundAuthenticationRequestConfig_t) :
  snd (isOauthApp_loop configs) = None /\
  (fst (isOauthApp_loop configs) = true <->
   exists rc, In rc configs /\
              strings.ToLower (InboundAuthType rc) = utils.OAUTH2).
Proof.
  induction configs as [|rc configs [IH1 IH2]]; simpl.
  - split; [reflexivity|]. split; [discriminate|]. now intros (rc & [] & _).
  - destruct (bool_decide_reflect
                (strings.ToLower (InboundAuthType rc) = utils.OAUTH2)) as [E|E].
    + split; [reflexivity|]. split; [|reflexivity]. intros _. eauto.
    + split; [assumption|]. rewrite IH2. split.
      * intros (rc' & Hin & H). eauto.
      * intros (rc' & [<-|Hin] & H); [contradiction | eauto].
Qed.

Lemma isOauthSecretGiven_loop_true (configs : list InboundAuthenticationRequestConfig_t) :
  isOauthSecretGiven_loop configs = (true, None) ->
  isOauthApp_loop configs = (true, None).
Proof.
  induction configs as [|rc configs IH]; simpl; [discriminate|].
  destruct (bool_decide (strings.ToLower (InboundAuthType rc) = utils.OAUTH2));
    [reflexivity | exact IH].
Qed.

Lemma lower_letter (c d : byte) :
  same_letter c d -> strings.is_upper d = false -> strings.lower_byte c = d.
Proof.
  intros [->|[_ H]] Hd; [|assumption].
  unfold strings.lower_byte. now rewrite Hd.
Qed.

(** Every letter-casing of "oauth2" is lower-cased to "oauth2". *)
Lemma ToLower_casing (t : list byte) :
  Forall2 same_letter t utils.OAUTH2 -> strings.ToLower t = utils.OAUTH2.
Proof.
  unfold utils.OAUTH2.
  let v := eval vm_compute in (str "oauth2") in change (str "oauth2") with v.
  intros H.
  repeat match goal with
         | H : Forall2 _ _ (_ :: _) |- _ => inversion H; subst; clear H
         | H : Forall2 _ _ [] |- _ => inversion H; subst; clear H
         end.
  cbn [strings.ToLower map].
  repeat match goal with
         | H : same_letter _ _ |- _ =>
             apply lower_letter in H; [rewrite H; clear H | reflexivity]
         end.
  reflexivity.
Qed.

End AuthFacts.

(** C6.  For every file that parses, [isOauthApp] returns no error, and
    returns true exactly when some entry has an [inboundAuthType] whose
    lower-casing is "oauth2"; with no entry it returns false and no error;
    it returns an error exactly when parsing fails; and every letter-casing
    of "oauth2" has that lower-casing. *)
Theorem isOauthApp_correct
        (yaml_Unmarshal : list byte -> AuthConfig + error)
        (fileData : list byte) :
  (forall config,
      yaml_Unmarshal fileData = inl config ->
      snd (isOauthApp yaml_Unmarshal fileData) = None /\
      (fst (isOauthApp yaml_Unmarshal fileData) = true <->
       exists rc, In rc (entries config) /\
                  strings.ToLower (InboundAuthType rc) = str "oauth2")) /\
  (forall config,
      yaml_Unmarshal fileData = inl config -> entries config = [] ->
      isOauthApp yaml_Unmarshal fileData = (false, None)) /\
  (snd (isOauthApp yaml_Unmarshal fileData) <> None <->
   exists e, yaml_Unmarshal fileData = inr e) /\
  (forall t, Forall2 same_letter t (str "oauth2") ->
             strings.ToLower t = str "oauth2").
Proof.
  unfold isOauthApp, unmarshalAuthConfig.
  split; [|split; [|split]].
  - intros config ->. apply isOauthApp_loop_spec.
  - intros config -> H. unfold entries in H. now rewrite H.
  - destruct (yaml_Unmarshal fileData) as [config|e]; simpl.
    + destruct (isOauthApp_loop_spec (entries config)) as [H _].
      unfold entries in H. rewrite H. split; [congruence|].
      intros (e & He). discriminate.
    + split; [eauto | discriminate].
  - apply ToLower_casing.
Qed.

Lemma isOauthApp_correct_witness :
  fst (isOauthApp sample_yaml sample_doc) = true.
Proof.
  apply (proj1 (isOauthApp_correct sample_yaml sample_doc) sample_config eq_refl).
  eexists. split; [left; reflexivity | reflexivity].
Defined.

Lemma isToolMgtApp_loop_spec (cfg : utils.ServerConfigs) (file : os.FileInfo)
      (configs : list InboundAuthenticationRequestConfig_t) (w : trace) :
  exists b w',
    isToolMgtApp_loop cfg file configs w = (Returned (b, None), w') /\
    (b = true <->
     exists rc, In rc configs /\ InboundAuthKey rc = utils.ClientId cfg).
Proof.
  induction configs as [|rc configs (b & w' & IH1 & IH2)]; simpl.
  - exists false, w. split; [reflexivity|]. split; [discriminate|].
    now intros (rc & [] & _).
  - destruct (bool_decide_reflect (InboundAuthKey rc = utils.ClientId cfg)) as [E|E].
    + eexists true, _. split; [reflexivity|]. split; [|reflexivity].
      intros _. eauto.
    + exists b, w'. split; [assumption|]. rewrite IH2. split.
      * intros (rc' & Hin & H). eauto.
      * intros (rc' & [<-|Hin] & H); [contradiction | eauto].
Qed.

(** C2.  [isToolMgtApp] returns true exactly when the file is read and
    parsed and some entry has an [inboundAuthKey] equal, byte for byte, to
    the configured client id; it returns an error, and false, exactly when
    the file cannot be read or cannot be parsed. *)
Theorem isToolMgtApp_correct
        (yaml_Unmarshal : list byte -> AuthConfig + error)
        (cfg : utils.ServerConfigs)
        (ReadFile : list byte -> list byte + error)
        (Join : list byte -> list byte -> list byte)
        (Sprintf : list byte -> list byte)
        (file : os.FileInfo) (importFilePath : list byte) (w : trace) :
  exists b err w',
    isToolMgtApp yaml_Unmarshal cfg ReadFile Join Sprintf file importFilePath w
    = (Returned (b, err), w') /\
    (b = true <->
     exists fileData config rc,
       ReadFile (Join importFilePath (os.Name file)) = inl fileData /\
       yaml_Unmarshal fileData = inl config /\
       In rc (entries config) /\
       InboundAuthKey rc = utils.ClientId cfg) /\
    (err <> None <->
     (exists e, ReadFile (Join importFilePath (os.Name file)) = inr e) \/
     (exists fileData e,
         ReadFile (Join importFilePath (os.Name file)) = inl fileData /\
         yaml_Unmarshal fileData = inr e)) /\
    (err <> None -> b = false).
Proof.
  unfold isToolMgtApp, unmarshalAuthConfig.
  destruct (ReadFile (Join importFilePath (os.Name file))) as [fileData|e].
  - destruct (yaml_Unmarshal fileData) as [config|e] eqn:Ey.
    + destruct (isToolMgtApp_loop_spec cfg file (entries config) w)
        as (b & w' & H1 & H2).
      exists b, None, w'. split; [exact H1|]. split; [|split].
      * rewrite H2. split.
        -- intros (rc & Hin & H). exists fileData, config, rc. auto.
        -- intros (d & c & rc & Hd & Hc & Hin & H).
           inversion Hd; subst d. rewrite Ey in Hc. inversion Hc; subst c.
           eauto.
      * split; [congruence|]. intros [(e & He)|(d & e & Hd & He)].
        -- discriminate.
        -- inversion Hd; subst d. congruence.
      * congruence.
    + eexists false, _, w. split; [reflexivity|]. split; [|split].
      * split; [discriminate|]. intros (d & c & rc & Hd & Hc & _).
        inversion Hd; subst d. congruence.
      * split; [|discriminate]. intros _. right. eauto.
      * reflexivity.
  - eexists false, _, w. split; [reflexivity|]. split; [|split].
    + split; [discriminate|]. intros (d & c & rc & Hd & _). discriminate.
    + split; [|discriminate]. intros _. left. eauto.
    + reflexivity.
Qed.

Lemma isToolMgtApp_correct_witness :
  exists b err w',
    isToolMgtApp sample_yaml sample_server_configs sample_ReadFile sample_Join
      (fun m => m) {| os.Name := str "console.yml" |} (str "apps") []
    = (Returned (b, err), w') /\ b = true.
Proof.
  destruct (isToolMgtApp_correct sample_yaml sample_server_configs
              sample_ReadFile sample_Join (fun m => m)
              {| os.Name := str "console.yml" |} (str "apps") [])
    as (b & err & w' & Hrun & Htrue & _).
  exists b, err, w'. split; [exact Hrun|].
  apply Htrue. exists sample_doc, sample_config. eexists.
  repeat split; [left; reflexivity | reflexivity].
Defined.

(** C9.  When [isOauthSecretGiven] returns true and no error for a file,
    [isOauthApp] returns true and no error for it. *)
Theorem secret_given_implies_oauth
        (yaml_Unmarshal : list byte -> AuthConfig + error)
        (Sprintf : list byte -> list byte)
        (s : list byte) :
  isOauthSecretGiven yaml_Unmarshal Sprintf s = (true, None) ->
  isOauthApp yaml_Unmarshal s = (true, None).
Proof.
  unfold isOauthSecretGiven, isOauthApp.
  destruct (unmarshalAuthConfig yaml_Unmarshal s) as [config [err|]];
    [discriminate|].
  apply isOauthSecretGiven_loop_true.
Qed.

Lemma secret_given_implies_oauth_witness :
  isOauthSecretGiven sample_yaml (fun m => m) sample_doc = (true, None) /\
  isOauthApp sample_yaml sample_doc = (true, None).
Proof.
  split; [reflexivity|].
  apply (secret_given_implies_oauth sample_yaml (fun m => m) sample_doc).
  reflexivity.
Defined.

(** C8.  For every resource name: without a table of overrides for the
    resource type the resolver returns the global mapping as it is; with
    one it returns what [ResolveAdvancedKeywordMapping] gives for the name
    and the table. *)
Theorem keyword_mapping_resolution
        (V : Type) (cfg : utils.KeywordConfigs V)
        (Resolve : list byte -> utils.gomap V -> utils.gomap V)
        (name : list byte) :
  (utils.ApplicationConfigs cfg = None ->
   getAppKeywordMapping cfg Resolve name = utils.KeywordMappings cfg) /\
  (utils.ApplicationConfigs cfg <> None ->
   getAppKeywordMapping cfg Resolve name
   = Resolve name (utils.ApplicationConfigs cfg)) /\
  (utils.IdpConfigs cfg = None ->
   identityproviders.getIdpKeywordMapping cfg Resolve name
   = utils.KeywordMappings cfg) /\
  (utils.IdpConfigs cfg <> None ->
   identityproviders.getIdpKeywordMapping cfg Resolve name
   = Resolve name (utils.IdpConfigs cfg)).
Proof.
  unfold getAppKeywordMapping, identityproviders.getIdpKeywordMapping.
  repeat split.
  - now intros ->.
  - destruct (utils.ApplicationConfigs cfg); [reflexivity | congruence].
  - now intros ->.
  - destruct (utils.IdpConfigs cfg); [reflexivity | congruence].
Qed.

Lemma keyword_mapping_resolution_witness :
  getAppKeywordMapping sample_keywords (fun _ table => table) (str "console")
  = Some {[ str "PORT" := 9443 ]} /\
  identityproviders.getIdpKeywordMapping sample_keywords (fun _ table => table)
    (str "google")
  = Some {[ str "google" := 1 ]}.
Proof.
  destruct (keyword_mapping_resolution Z sample_keywords (fun _ table => table)
              (str "console")) as (Happ & _).
  destruct (keyword_mapping_resolution Z sample_keywords (fun _ table => table)
              (str "google")) as (_ & _ & _ & Hidp).
  split; [apply Happ; reflexivity | apply Hidp; discriminate].
Defined.

(** * Further properties of the two files *)

(** ** The count requests *)

Ltac not_a_success :=
  split; [discriminate|];
  let r0 := fresh "r" in let b0 := fresh "b" in let l0 := fresh "l" in
  let Hr := fresh "Hr" in let Hs := fresh "Hs" in
  let Hb := fresh "Hb" in let Hj := fresh "Hj" in
  intros (r0 & b0 & l0 & Hr & Hs & Hb & Hj & _);
  try discriminate Hr;
  inversion Hr; subst r0;
  try contradiction;
  try congruence;
  match goal with
  | E : utils.Body _ = inl _ |- _ =>
      rewrite E in Hb; inversion Hb; subst b0; congruence
  end.

(** X1.  A count function returns no error exactly when its request is
    answered with the status 200 and a body that is read and decoded, and
    its count is then the [totalResults] of the decoded list; in every
    other case the count is -1.  It never panics and never exits. *)
Theorem total_count_result
        (server : nat -> list byte -> Z -> utils.reply)
        (codes : gmap Z (list byte))
        (json_apps : list byte -> applications.AppList + error)
        (json_idps : list byte -> identityproviders.idpList + error)
        (w : trace) :
  (exists c err w',
      applications.getTotalAppCount server codes json_apps w
      = (Returned (c, err), w') /\
      (err = None <->
       exists resp body lst,
         server (requests w) utils.APPLICATIONS (-1) = inl resp /\
         utils.StatusCode resp = 200 /\ utils.Body resp = inl body /\
         json_apps body = inl lst /\ c = applications.AppCount lst) /\
      (err <> None -> c = -1)) /\
  (exists c err w',
      identityproviders.getTotalIdpCount server codes json_idps w
      = (Returned (c, err), w') /\
      (err = None <->
       exists resp body lst,
         server (requests w) utils.IDENTITY_PROVIDERS (-1) = inl resp /\
         utils.StatusCode resp = 200 /\ utils.Body resp = inl body /\
         json_idps body = inl lst /\ c = identityproviders.IdpCount lst) /\
      (err <> None -> c = -1)).
Proof.
  split.
  - unfold applications.getTotalAppCount, SendGetListRequest, bind, defer, emit, ret.
    destruct (server (requests w) utils.APPLICATIONS (-1)) as [resp|e];
      [destruct (utils.StatusCode resp =? 200) eqn:Es;
       [apply Z.eqb_eq in Es;
        destruct (utils.Body resp) as [body|e] eqn:Eb;
        [destruct (json_apps body) as [lst|e] eqn:Ej|]
       |apply Z.eqb_neq in Es; destruct (codes !! utils.StatusCode resp)]|];
      cbn [fst snd]; eexists _, _, _; (split; [reflexivity|]);
      (split; [|intros H; congruence || reflexivity]);
      try not_a_success.
    split; [intros _; exists resp, body, lst; auto | reflexivity].
  - unfold identityproviders.getTotalIdpCount, SendGetListRequest, bind, defer, emit, ret.
    destruct (server (requests w) utils.IDENTITY_PROVIDERS (-1)) as [resp|e];
      [destruct (utils.StatusCode resp =? 200) eqn:Es;
       [apply Z.eqb_eq in Es;
        destruct (utils.Body resp) as [body|e] eqn:Eb;
        [destruct (json_idps body) as [lst|e] eqn:Ej|]
       |apply Z.eqb_neq in Es; destruct (codes !! utils.StatusCode resp)]|];
      cbn [fst snd]; eexists _, _, _; (split; [reflexivity|]);
      (split; [|intros H; congruence || reflexivity]);
      try not_a_success.
    split; [intros _; exists resp, body, lst; auto | reflexivity].
Qed.

Ltac closings_counted :=
  split; [|split; [|lia]];
  (split;
   [intros H; first [discriminate H | eauto 10]
   |let Hr := fresh "Hr" in let Hs := fresh "Hs" in
    let Hb := fresh "Hb" in let Hj := fresh "Hj" in
    first
      [intros (? & ? & ? & Hr & Hs & Hb & Hj);
       first [reflexivity
             | exfalso;
               first [discriminate Hr
                     | inversion Hr; subst;
                       first [contradiction | congruence]]]
      |intros (? & Hr);
       first [reflexivity | discriminate Hr]]]).

(** X2.  A count function sends one request, with the limit -1, logs
    nothing, and after that only closes the body of the response: twice
    exactly when the count succeeds, that is when the status is 200 and the
    body is read and decoded (the explicit [Close] and the deferred one);
    never exactly when the request itself fails; once in every other
    case. *)
Theorem total_count_trace
        (server : nat -> list byte -> Z -> utils.reply)
        (codes : gmap Z (list byte))
        (json_apps : list byte -> applications.AppList + error)
        (json_idps : list byte -> identityproviders.idpList + error)
        (w : trace) :
  (exists k,
      snd (applications.getTotalAppCount server codes json_apps w)
      = w ++ Sent utils.APPLICATIONS (-1) :: repeat (Closed (requests w)) k /\
      (k = 2%nat <->
       exists resp body lst,
         server (requests w) utils.APPLICATIONS (-1) = inl resp /\
         utils.StatusCode resp = 200 /\ utils.Body resp = inl body /\
         json_apps body = inl lst) /\
      (k = 0%nat <->
       exists e, server (requests w) utils.APPLICATIONS (-1) = inr e) /\
      (k <= 2)%nat) /\
  (exists k,
      snd (identityproviders.getTotalIdpCount server codes json_idps w)
      = w ++ Sent utils.IDENTITY_PROVIDERS (-1)
          :: repeat (Closed (requests w)) k /\
      (k = 2%nat <->
       exists resp body lst,
         server (requests w) utils.IDENTITY_PROVIDERS (-1) = inl resp /\
         utils.StatusCode resp = 200 /\ utils.Body resp = inl body /\
         json_idps body = inl lst) /\
      (k = 0%nat <->
       exists e, server (requests w) utils.IDENTITY_PROVIDERS (-1) = inr e) /\
      (k <= 2)%nat).
Proof.
  split.
  - unfold applications.getTotalAppCount, SendGetListRequest, bind, defer, emit, ret.
    destruct (server (requests w) utils.APPLICATIONS (-1)) as [resp|e];
      [destruct (utils.StatusCode resp =? 200) eqn:Es;
       [apply Z.eqb_eq in Es;
        destruct (utils.Body resp) as [body|e] eqn:Eb;
        [destruct (json_apps body) as [lst|e] eqn:Ej|]
       |apply Z.eqb_neq in Es; destruct (codes !! utils.StatusCode resp)]|];
      cbn [fst snd]; rewrite <- ?app_assoc; cbn [app].
    1: exists 2%nat.
    6: exists 0%nat.
    2-5: exists 1%nat.
    all: (split; [reflexivity|]); closings_counted.
  - unfold identityproviders.getTotalIdpCount, SendGetListRequest, bind, defer, emit, ret.
    destruct (server (requests w) utils.IDENTITY_PROVIDERS (-1)) as [resp|e];
      [destruct (utils.StatusCode resp =? 200) eqn:Es;
       [apply Z.eqb_eq in Es;
        destruct (utils.Body resp) as [body|e] eqn:Eb;
        [destruct (json_idps body) as [lst|e] eqn:Ej|]
       |apply Z.eqb_neq in Es; destruct (codes !! utils.StatusCode resp)]|];
      cbn [fst snd]; rewrite <- ?app_assoc; cbn [app].
    1: exists 2%nat.
    6: exists 0%nat.
    2-5: exists 1%nat.
    all: (split; [reflexivity|]); closings_counted.
Qed.

(** ** The list requests *)

(** X3.  [getIdpList] sends two requests: the count request and then the
    list request, whose limit is the count that the count function
    returned.  Between them it logs one line when the count failed and none
    otherwise, and after them it closes the body of the list response when
    there is one, on every path, and nothing else. *)
Theorem getIdpList_trace
        (server : nat -> list byte -> Z -> utils.reply)
        (codes : gmap Z (list byte))
        (json : list byte -> identityproviders.idpList + error)
        (w0 : trace) :
  exists c err w1 k,
    identityproviders.getTotalIdpCount server codes json w0
    = (Returned (c, err), w1) /\
    snd (identityproviders.getIdpList server codes json w0)
    = w1
      ++ match err with
         | Some e =>
             [Logged (str "Error: when retrieving IDP count. Retrieving only the default count."
                      ++ str " " ++ Error e)]
         | None => []
         end
      ++ Sent utils.IDENTITY_PROVIDERS c :: repeat (Closed (requests w1)) k /\
    match server (requests w1) utils.IDENTITY_PROVIDERS c with
    | inl _ => k = 1%nat \/ k = 2%nat
    | inr _ => k = 0%nat
    end.
Proof.
  destruct (getTotalIdpCount_returns server codes json w0)
    as (c & err & w1 & Hc & _ & _).
  exists c, err, w1.
  unfold identityproviders.getIdpList, bind at 1. rewrite Hc.
  unfold bind, log_Println, emit, SendGetListRequest, defer, ret.
  destruct err as [e0|]; cbn [fst snd]; rewrite ?requests_logged;
    (destruct (server (requests w1) utils.IDENTITY_PROVIDERS c) as [resp|e];
     [destruct (utils.StatusCode resp =? 200);
      [destruct (utils.Body resp) as [body|e];
       [destruct (json body) as [lst|e]|]
      |destruct (codes !! utils.StatusCode resp)]|]);
    cbn [fst snd]; rewrite <- ?app_assoc; cbn [app].
  1,7: exists 2%nat; split; [reflexivity | split; [reflexivity | auto]].
  5,10: exists 0%nat; split; [reflexivity | split; [reflexivity | auto]].
  all: exists 1%nat; split; [reflexivity | split; [reflexivity | auto]].
Qed.

(** X4.  [getIdpList] returns no error exactly when the list request is
    answered with the status 200 and a body that is read and decoded, and
    its list is then the decoded [identityProviders]; whenever it returns
    an error its list is nil.  The outcome of the count request has no part
    in this. *)
Theorem getIdpList_result
        (server : nat -> list byte -> Z -> utils.reply)
        (codes : gmap Z (list byte))
        (json : list byte -> identityproviders.idpList + error)
        (w0 : trace) :
  exists c err0 w1 idps err w',
    identityproviders.getTotalIdpCount server codes json w0
    = (Returned (c, err0), w1) /\
    identityproviders.getIdpList server codes json w0
    = (Returned (idps, err), w') /\
    (err = None <->
     exists resp body lst,
       server (requests w1) utils.IDENTITY_PROVIDERS c = inl resp /\
       utils.StatusCode resp = 200 /\ utils.Body resp = inl body /\
       json body = inl lst /\
       idps = identityproviders.IdentityProviders lst) /\
    (err <> None -> idps = []).
Proof.
  destruct (getTotalIdpCount_returns server codes json w0)
    as (c & err0 & w1 & Hc & _ & _).
  exists c, err0, w1.
  unfold identityproviders.getIdpList, bind at 1. rewrite Hc.
  unfold bind, log_Println, emit, SendGetListRequest, defer, ret.
  destruct err0 as [e0|]; cbn [fst snd]; rewrite ?requests_logged;
    (destruct (server (requests w1) utils.IDENTITY_PROVIDERS c) as [resp|e];
     [destruct (utils.StatusCode resp =? 200) eqn:Es;
      [apply Z.eqb_eq in Es;
       destruct (utils.Body resp) as [body|e] eqn:Eb;
       [destruct (json body) as [lst|e] eqn:Ej|]
      |apply Z.eqb_neq in Es; destruct (codes !! utils.StatusCode resp)]|]);
    cbn [fst snd]; eexists _, _, _; (split; [reflexivity|]);
    (split; [reflexivity|]);
    (split; [|intros H; congruence || reflexivity]);
    try not_a_success;
    (split; [intros _; exists resp, body, lst; auto | reflexivity]).
Qed.

(** X5.  Every error that a count function or [getIdpList] returns either
    wraps the error that the request, the reading of the body or the
    decoding gave, with the message of that error at the end of its own,
    or wraps nothing and stands for a status other than 200. *)
Theorem lister_errors_wrap_their_cause
        (server : nat -> list byte -> Z -> utils.reply)
        (codes : gmap Z (list byte))
        (json_apps : list byte -> applications.AppList + error)
        (json_idps : list byte -> identityproviders.idpList + error)
        (w0 : trace) :
  (forall c err w1,
      applications.getTotalAppCount server codes json_apps w0
      = (Returned (c, Some err), w1) ->
      (exists cause text,
          cause_of (server (requests w0) utils.APPLICATIONS (-1)) json_apps cause /\
          Unwrap err = Some cause /\ Error err = text ++ Error cause) \/
      (Unwrap err = None /\
       exists resp,
         server (requests w0) utils.APPLICATIONS (-1) = inl resp /\
         utils.StatusCode resp <> 200)) /\
  (forall c err w1,
      identityproviders.getTotalIdpCount server codes json_idps w0
      = (Returned (c, Some err), w1) ->
      (exists cause text,
          cause_of (server (requests w0) utils.IDENTITY_PROVIDERS (-1)) json_idps cause /\
          Unwrap err = Some cause /\ Error err = text ++ Error cause) \/
      (Unwrap err = None /\
       exists resp,
         server (requests w0) utils.IDENTITY_PROVIDERS (-1) = inl resp /\
         utils.StatusCode resp <> 200)) /\
  (forall c err0 w1 idps err w',
      identityproviders.getTotalIdpCount server codes json_idps w0
      = (Returned (c, err0), w1) ->
      identityproviders.getIdpList server codes json_idps w0
      = (Returned (idps, Some err), w') ->
      (exists cause text,
          cause_of (server (requests w1) utils.IDENTITY_PROVIDERS c) json_idps cause /\
          Unwrap err = Some cause /\ Error err = text ++ Error cause) \/
      (Unwrap err = None /\
       exists resp,
         server (requests w1) utils.IDENTITY_PROVIDERS c = inl resp /\
         utils.StatusCode resp <> 200)).
Proof.
  unfold cause_of. split; [|split].
  - intros c err w1.
    unfold applications.getTotalAppCount, SendGetListRequest, bind, defer, emit, ret.
    destruct (server (requests w0) utils.APPLICATIONS (-1)) as [resp|e];
      [destruct (utils.StatusCode resp =? 200) eqn:Es;
       [apply Z.eqb_eq in Es;
        destruct (utils.Body resp) as [body|e] eqn:Eb;
        [destruct (json_apps body) as [lst|e] eqn:Ej|]
       |apply Z.eqb_neq in Es; destruct (codes !! utils.StatusCode resp)]|];
      cbn [fst snd]; intros H; inversion H; subst; clear H;
      try (right; split; [reflexivity | eauto]; fail);
      left; eexists _, _; (split; [|split; reflexivity]); eauto 8.
  - intros c err w1.
    unfold identityproviders.getTotalIdpCount, SendGetListRequest, bind, defer, emit, ret.
    destruct (server (requests w0) utils.IDENTITY_PROVIDERS (-1)) as [resp|e];
      [destruct (utils.StatusCode resp =? 200) eqn:Es;
       [apply Z.eqb_eq in Es;
        destruct (utils.Body resp) as [body|e] eqn:Eb;
        [destruct (json_idps body) as [lst|e] eqn:Ej|]
       |apply Z.eqb_neq in Es; destruct (codes !! utils.StatusCode resp)]|];
      cbn [fst snd]; intros H; inversion H; subst; clear H;
      try (right; split; [reflexivity | eauto]; fail);
      left; eexists _, _; (split; [|split; reflexivity]); eauto 8.
  - intros c err0 w1 idps err w' Hc.
    unfold identityproviders.getIdpList, bind at 1. rewrite Hc.
    unfold bind, log_Println, emit, SendGetListRequest, defer, ret.
    destruct err0 as [e0|]; cbn [fst snd]; rewrite ?requests_logged;
      (destruct (server (requests w1) utils.IDENTITY_PROVIDERS c) as [resp|e];
       [destruct (utils.StatusCode resp =? 200) eqn:Es;
        [apply Z.eqb_eq in Es;
         destruct (utils.Body resp) as [body|e] eqn:Eb;
         [destruct (json_idps body) as [lst|e] eqn:Ej|]
        |apply Z.eqb_neq in Es; destruct (codes !! utils.StatusCode resp)]|]);
      cbn [fst snd]; intros H; inversion H; subst; clear H;
      try (right; split; [reflexivity | eauto]; fail);
      left; eexists _, _; (split; [|split; reflexivity]); eauto 8.
Qed.

Lemma lister_errors_wrap_their_cause_witness :
  exists cause text,
    cause_of (unreachable_server 0 utils.APPLICATIONS (-1)) sample_json_apps cause /\
    Unwrap (Errorf_w (str "failed to retrieve available app list. ")
                     (NewError (str "connection refused")))
    = Some cause /\
    Error (Errorf_w (str "failed to retrieve available app list. ")
                    (NewError (str "connection refused")))
    = text ++ Error cause.
Proof.
  destruct (proj1 (lister_errors_wrap_their_cause unreachable_server sample_codes
                     sample_json_apps sample_json_idps [])
              (-1)
              (Errorf_w (str "failed to retrieve available app list. ")
                        (NewError (str "connection refused")))
              [Sent utils.APPLICATIONS (-1)] eq_refl)
    as [H|[H _]]; [exact H | discriminate H].
Defined.

(** X6.  How [getAppList] ends is decided by the reply to the list request
    alone: it panics exactly when the request fails; the process exits
    exactly when the status is 200 and the body cannot be read or decoded,
    and then the run is the count request, the warning when the count
    failed, the list request and, last, the log of the very error that the
    read or the decoding gave, the body being left open; in every other
    case it returns, with the body closed. *)
Theorem getAppList_outcome
        (server : nat -> list byte -> Z -> utils.reply)
        (codes : gmap Z (list byte))
        (json : list byte -> applications.AppList + error)
        (w0 : trace) :
  exists c err0 w1,
    applications.getTotalAppCount server codes json w0
    = (Returned (c, err0), w1) /\
    (fst (applications.getAppList server codes json w0) = Panicked <->
     exists e, server (requests w1) utils.APPLICATIONS c = inr e) /\
    (fst (applications.getAppList server codes json w0) = Exited <->
     exists resp cause,
       server (requests w1) utils.APPLICATIONS c = inl resp /\
       utils.StatusCode resp = 200 /\
       (utils.Body resp = inr cause \/
        exists body, utils.Body resp = inl body /\ json body = inr cause)) /\
    (forall resp cause,
        server (requests w1) utils.APPLICATIONS c = inl resp ->
        utils.StatusCode resp = 200 ->
        utils.Body resp = inr cause \/
        (exists body, utils.Body resp = inl body /\ json body = inr cause) ->
        applications.getAppList server codes json w0
        = (Exited,
           w1
           ++ match err0 with
              | Some e =>
                  [Logged (str "Error while retrieving application count. Retrieving only the default count."
                           ++ str " " ++ Error e)]
              | None => []
              end
           ++ [Sent utils.APPLICATIONS c; Logged (Error cause)])) /\
    (forall apps,
        fst (applications.getAppList server codes json w0) = Returned apps ->
        closed (requests w1) (snd (applications.getAppList server codes json w0))).
Proof.
  destruct (getTotalAppCount_returns server codes json w0)
    as (c & err0 & w1 & Hc & _ & _).
  exists c, err0, w1. split; [exact Hc|].
  remember (applications.getAppList server codes json w0) as R eqn:HR.
  unfold applications.getAppList, bind at 1 in HR. rewrite Hc in HR.
  unfold bind, log_Println, emit, SendGetListRequest, defer, ret, panic,
    log_Fatalln in HR.
  unfold closed.
  destruct err0 as [e0|]; cbn [fst snd] in HR; rewrite ?requests_logged in HR;
    (destruct (server (requests w1) utils.APPLICATIONS c) as [resp|e];
     [destruct (utils.StatusCode resp =? 200) eqn:Es;
      [apply Z.eqb_eq in Es;
       destruct (utils.Body resp) as [body|e] eqn:Eb;
       [destruct (json body) as [lst|e] eqn:Ej|]
      |apply Z.eqb_neq in Es; destruct (codes !! utils.StatusCode resp)]|]);
    cbn [fst snd] in HR; subst R; cbn [fst snd].
  all: split;
    [split; [intros H; first [discriminate H | eauto]
            | intros (e' & He'); first [discriminate He' | reflexivity]]|].
  all: split;
    [split; [intros H; first [discriminate H | eauto 12]|]|].
  all: try (intros (r' & c' & Hr' & Hs' & Hb');
            first [discriminate Hr' | inversion Hr'; subst r'];
            first [contradiction | reflexivity
                  | destruct Hb' as [Hb'|(b' & Hb' & Hj')];
                    first [congruence
                          | rewrite Eb in Hb'; inversion Hb'; subst b';
                            congruence]]).
  all: split;
    [intros r' c' Hr' Hs' Hb';
     first [discriminate Hr' | inversion Hr'; subst r'];
     first [contradiction
           | destruct Hb' as [Hb'|(b' & Hb' & Hj')];
             first [rewrite Eb in Hb'; inversion Hb'; subst;
                    first [congruence
                          | rewrite Ej in Hj'; inversion Hj'; subst;
                            rewrite <- ?app_assoc; reflexivity
                          | rewrite <- ?app_assoc; reflexivity]
                   | congruence]]
    | intros apps H; first [discriminate H
                           | rewrite !in_app_iff; simpl; auto]].
Qed.

(** X7.  [getDeployedAppNames]: whatever the count request gave, when the
    list request is answered with the status 200 and a body that is read
    and decoded, the names of the decoded applications are returned, in the
    order of the list; when it is answered with another status, the empty
    list is returned, with nothing to tell it from a server without
    applications. *)
Theorem getDeployedAppNames_names
        (server : nat -> list byte -> Z -> utils.reply)
        (codes : gmap Z (list byte))
        (json : list byte -> applications.AppList + error)
        (w0 w1 : trace) (c : Z) (err0 : option error) (resp : utils.Response) :
  applications.getTotalAppCount server codes json w0 = (Returned (c, err0), w1) ->
  server (requests w1) utils.APPLICATIONS c = inl resp ->
  (forall body lst,
      utils.StatusCode resp = 200 -> utils.Body resp = inl body ->
      json body = inl lst ->
      fst (applications.getDeployedAppNames server codes json w0)
      = Returned (map applications.Name (applications.Applications lst))) /\
  (utils.StatusCode resp <> 200 ->
   fst (applications.getDeployedAppNames server codes json w0) = Returned []).
Proof.
  intros Hc Hresp.
  unfold applications.getDeployedAppNames, bind.
  remember (applications.getAppList server codes json w0) as R eqn:HR.
  unfold applications.getAppList, bind at 1 in HR. rewrite Hc in HR.
  unfold bind, log_Println, emit, SendGetListRequest, defer, ret in HR.
  split.
  - intros body lst Hs Hb Hj.
    destruct err0; cbn [fst snd] in HR;
      rewrite ?requests_logged, Hresp, Hs, Hb, Hj in HR;
      cbn [Z.eqb Pos.eqb fst snd] in HR; subst R; reflexivity.
  - intros Hs. apply Z.eqb_neq in Hs.
    destruct err0; cbn [fst snd] in HR;
      rewrite ?requests_logged, Hresp, Hs in HR;
      destruct (codes !! utils.StatusCode resp);
      cbn [fst snd] in HR; subst R; reflexivity.
Qed.

Lemma getDeployedAppNames_names_witness :
  fst (applications.getDeployedAppNames sample_server sample_codes
         sample_json_apps [])
  = Returned [str "console"; str "portal"; str "shop"].
Proof.
  apply (proj1 (getDeployedAppNames_names sample_server sample_codes
                  sample_json_apps []
                  [Sent utils.APPLICATIONS (-1)] (-1)
                  (Some (Errorf_w (str "failed to retrieve available app list. ")
                                  (NewError (str "connection reset"))))
                  {| utils.StatusCode := 200; utils.Body := inl (str "page") |}
                  eq_refl eq_refl)
           (str "page") sample_apps eq_refl eq_refl eq_refl).
Defined.

(** ** The classifiers and the guard *)

Lemma isOauthSecretGiven_loop_spec
      (configs : list InboundAuthenticationRequestConfig_t) :
  snd (isOauthSecretGiven_loop configs) = None /\
  (fst (isOauthSecretGiven_loop configs) = true <->
   exists rc, In rc configs /\
              strings.ToLower (InboundAuthType rc) = utils.OAUTH2 /\
              OauthConsumerSecret (InboundConfigurationProtocol rc) <> []).
Proof.
  induction configs as [|rc configs [IH1 IH2]]; simpl.
  - split; [reflexivity|]. split; [discriminate|]. now intros (rc & [] & _).
  - destruct (bool_decide_reflect
                (strings.ToLower (InboundAuthType rc) = utils.OAUTH2)) as [E|E];
      [destruct (bool_decide_reflect
                   (OauthConsumerSecret (InboundConfigurationProtocol rc) <> []))
        as [E'|E']|].
    + split; [reflexivity|]. split; [|reflexivity]. intros _. eauto.
    + split; [assumption|]. rewrite IH2. split.
      * intros (rc' & Hin & H). eauto.
      * intros (rc' & [<-|Hin] & H1 & H2); [contradiction | eauto].
    + split; [assumption|]. rewrite IH2. split.
      * intros (rc' & Hin & H). eauto.
      * intros (rc' & [<-|Hin] & H1 & H2); [contradiction | eauto].
Qed.

(** X8.  For every file that parses, [isOauthSecretGiven] returns no error
    and returns true exactly when some entry has an [inboundAuthType] whose
    lower-casing is "oauth2" and an [oauthConsumerSecret] that is not empty:
    an OAuth2 entry with an empty secret does not end the search.  It
    returns an error exactly when parsing fails. *)
Theorem isOauthSecretGiven_correct
        (yaml_Unmarshal : list byte -> AuthConfig + error)
        (Sprintf : list byte -> list byte)
        (modifiedFileData : list byte) :
  (forall config,
      yaml_Unmarshal modifiedFileData = inl config ->
      snd (isOauthSecretGiven yaml_Unmarshal Sprintf modifiedFileData) = None /\
      (fst (isOauthSecretGiven yaml_Unmarshal Sprintf modifiedFileData) = true <->
       exists rc, In rc (entries config) /\
                  strings.ToLower (InboundAuthType rc) = str "oauth2" /\
                  OauthConsumerSecret (InboundConfigurationProtocol rc) <> [])) /\
  (snd (isOauthSecretGiven yaml_Unmarshal Sprintf modifiedFileData) <> None <->
   exists e, yaml_Unmarshal modifiedFileData = inr e).
Proof.
  unfold isOauthSecretGiven, unmarshalAuthConfig. split.
  - intros config ->. apply isOauthSecretGiven_loop_spec.
  - destruct (yaml_Unmarshal modifiedFileData) as [config|e]; simpl.
    + destruct (isOauthSecretGiven_loop_spec (entries config)) as [H _].
      unfold entries in H. rewrite H. split; [congruence|].
      intros (e & He). discriminate.
    + split; [eauto | discriminate].
Qed.

Lemma isOauthSecretGiven_correct_witness :
  fst (isOauthSecretGiven sample_yaml (fun m => m) sample_doc) = true.
Proof.
  apply (proj1 (isOauthSecretGiven_correct sample_yaml (fun m => m) sample_doc)
           sample_config eq_refl).
  eexists. split; [left; reflexivity | split; [reflexivity | discriminate]].
Defined.

Lemma isToolMgtApp_loop_trace (cfg : utils.ServerConfigs) (file : os.FileInfo)
      (configs : list InboundAuthenticationRequestConfig_t) (w : trace) :
  isToolMgtApp_loop cfg file configs w = (Returned (false, None), w) \/
  isToolMgtApp_loop cfg file configs w
  = (Returned (true, None),
     w ++ [Logged (str "Info: Tool Management App: "
                   ++ strings.TrimSuffix (os.Name file) (filepath.Ext (os.Name file))
                   ++ str " is excluded from deletion.")]).
Proof.
  induction configs as [|rc configs IH]; simpl; [now left|].
  destruct (bool_decide (InboundAuthKey rc = utils.ClientId cfg));
    [now right | exact IH].
Qed.

(** X9.  The errors of the three functions that parse a file wrap nothing:
    the error of the parser, or of the reading of the file, is only quoted
    in the message.  [isOauthApp] returns the error of
    [unmarshalAuthConfig] as it is, and a call of [isToolMgtApp] that
    returns an error has logged nothing. *)
Theorem auth_errors_are_flat
        (yaml_Unmarshal : list byte -> AuthConfig + error)
        (cfg : utils.ServerConfigs)
        (ReadFile : list byte -> list byte + error)
        (Join : list byte -> list byte -> list byte)
        (Sprintf : list byte -> list byte)
        (file : os.FileInfo) (importFilePath data : list byte) (w : trace) :
  (forall err,
      snd (isOauthApp yaml_Unmarshal data) = Some err ->
      Unwrap err = None /\
      exists e, yaml_Unmarshal data = inr e /\
                Error err = str "failed to unmarshal auth config: " ++ Error e) /\
  (forall err,
      snd (isOauthSecretGiven yaml_Unmarshal Sprintf data) = Some err ->
      Unwrap err = None /\
      exists e, yaml_Unmarshal data = inr e /\
                Error err
                = Sprintf (str "failed to unmarshal auth config: " ++ Error e)) /\
  (forall b err w',
      isToolMgtApp yaml_Unmarshal cfg ReadFile Join Sprintf file importFilePath w
      = (Returned (b, Some err), w') ->
      Unwrap err = None /\ w' = w /\
      ((exists e,
           ReadFile (Join importFilePath (os.Name file)) = inr e /\
           Error err = str "failed to read file: " ++ Error e) \/
       (exists fileData e,
           ReadFile (Join importFilePath (os.Name file)) = inl fileData /\
           yaml_Unmarshal fileData = inr e /\
           Error err
           = Sprintf (str "failed to unmarshal auth config: " ++ Error e)))).
Proof.
  split; [|split].
  - unfold isOauthApp, unmarshalAuthConfig. intros err.
    destruct (yaml_Unmarshal data) as [config|e].
    + destruct (isOauthApp_loop_spec (entries config)) as [H _].
      unfold entries in H. rewrite H. discriminate.
    + simpl. intros H. inversion H; subst. split; [reflexivity|]. eauto.
  - unfold isOauthSecretGiven, unmarshalAuthConfig. intros err.
    destruct (yaml_Unmarshal data) as [config|e].
    + destruct (isOauthSecretGiven_loop_spec (entries config)) as [H _].
      unfold entries in H. rewrite H. discriminate.
    + simpl. intros H. inversion H; subst. split; [reflexivity|]. eauto.
  - unfold isToolMgtApp, unmarshalAuthConfig. intros b err w'.
    destruct (ReadFile (Join importFilePath (os.Name file))) as [fileData|e].
    + destruct (yaml_Unmarshal fileData) as [config|e] eqn:Ey.
      * destruct (isToolMgtApp_loop_trace cfg file (entries config) w) as [H|H];
          unfold entries in H; rewrite H; discriminate.
      * unfold ret. intros H. inversion H; subst.
        split; [reflexivity|]. split; [reflexivity|]. right. eauto.
    + unfold ret. intros H. inversion H; subst.
      split; [reflexivity|]. split; [reflexivity|]. left. eauto.
Qed.

Lemma auth_errors_are_flat_witness :
  Unwrap (Errorf_s (str "failed to unmarshal auth config: ")
                   (str "yaml: unmarshal errors")) = None.
Proof.
  apply (proj1 (auth_errors_are_flat sample_yaml sample_server_configs
                  sample_ReadFile sample_Join (fun m => m)
                  {| os.Name := str "console.yml" |} (str "apps")
                  (str "not a document") [])).
  reflexivity.
Defined.

Lemma ext_from_suffix (path acc : list byte) :
  filepath.ext_from path acc = acc \/
  exists p, path = p ++ filepath.ext_from path acc.
Proof.
  revert acc. induction path as [|b path IH]; intros acc; simpl; [now left|].
  destruct (Byte.eqb b "/").
  - right. destruct (IH []) as [H|(p & H)].
    + rewrite H. exists (b :: path). now rewrite app_nil_r.
    + exists (b :: p). simpl. now rewrite <- H.
  - destruct (Byte.eqb b ".").
    + right. destruct (IH (b :: path)) as [H|(p & H)].
      * rewrite H. now exists [].
      * exists (b :: p). simpl. now rewrite <- H.
    + destruct (IH acc) as [H|(p & H)]; [now left|].
      right. exists (b :: p). simpl. now rewrite <- H.
Qed.

Lemma Ext_suffix (path : list byte) : exists p, path = p ++ filepath.Ext path.
Proof.
  unfold filepath.Ext. destruct (ext_from_suffix path []) as [H|H]; [|exact H].
  rewrite H. exists path. now rewrite app_nil_r.
Qed.

Lemma HasPrefix_app (x y : list byte) : strings.HasPrefix (x ++ y) x = true.
Proof.
  induction x as [|a x IH]; simpl; [now destruct y|].
  now rewrite eqb_refl, IH.
Qed.

Lemma TrimSuffix_app (p suffix : list byte) :
  strings.TrimSuffix (p ++ suffix) suffix = p.
Proof.
  unfold strings.TrimSuffix, strings.HasSuffix.
  rewrite rev_app_distr, HasPrefix_app, length_app.
  replace (length p + length suffix - length suffix)%nat with (length p) by lia.
  induction p as [|a p IH]; simpl; [reflexivity | now rewrite IH].
Qed.

(** X10.  [isToolMgtApp] logs one line, and only when it returns true: the
    notice that names the application, whose name is the name of the file
    without its extension (the name followed by the extension is the name
    of the file).  When it returns false it logs nothing. *)
Theorem isToolMgtApp_notice
        (yaml_Unmarshal : list byte -> AuthConfig + error)
        (cfg : utils.ServerConfigs)
        (ReadFile : list byte -> list byte + error)
        (Join : list byte -> list byte -> list byte)
        (Sprintf : list byte -> list byte)
        (file : os.FileInfo) (importFilePath : list byte) (w : trace) :
  exists b err w',
    isToolMgtApp yaml_Unmarshal cfg ReadFile Join Sprintf file importFilePath w
    = (Returned (b, err), w') /\
    (b = false -> w' = w) /\
    (b = true ->
     exists appName,
       w' = w ++ [Logged (str "Info: Tool Management App: " ++ appName
                          ++ str " is excluded from deletion.")] /\
       appName ++ filepath.Ext (os.Name file) = os.Name file).
Proof.
  unfold isToolMgtApp, unmarshalAuthConfig, ret.
  destruct (ReadFile (Join importFilePath (os.Name file))) as [fileData|e].
  - destruct (yaml_Unmarshal fileData) as [config|e].
    + destruct (isToolMgtApp_loop_trace cfg file (entries config) w) as [H|H];
        unfold entries in H; rewrite H; eexists _, _, _;
        (split; [reflexivity|]); (split; [intros Hb; try discriminate Hb; reflexivity|]);
        intros Hb; try discriminate Hb.
      eexists. split; [reflexivity|].
      destruct (Ext_suffix (os.Name file)) as (p & Hp).
      rewrite Hp at 1. rewrite TrimSuffix_app. now rewrite <- Hp.
    + eexists _, _, _. split; [reflexivity|]. split; [reflexivity | discriminate].
  - eexists _, _, _. split; [reflexivity|]. split; [reflexivity | discriminate].
Qed.

Example isToolMgtApp_notice_example :
  snd (isToolMgtApp sample_yaml sample_server_configs sample_ReadFile
         sample_Join (fun m => m) {| os.Name := str "console.yml" |}
         (str "apps") [])
  = [Logged (str "Info: Tool Management App: console is excluded from deletion.")].
Proof. reflexivity. Qed.

(** ** The masker, further *)

Section MaskerMore.
Variable MASK : list byte.
Hypothesis MASK_dollar_free : dollar_free MASK = true.

Lemma lines_nonempty (s : list byte) : lines s <> [].
Proof.
  destruct s as [|b s]; simpl; [discriminate|].
  destruct (is_nl b); [discriminate|]. now destruct (lines s).
Qed.

Lemma unlines_cons (b : byte) (l : list byte) (ls : list (list byte)) :
  unlines ((b :: l) :: ls) = b :: unlines (l :: ls).
Proof. now destruct ls. Qed.

Lemma unlines_lines (s : list byte) : unlines (lines s) = s.
Proof.
  induction s as [|b s IH]; [reflexivity|]. simpl.
  destruct (is_nl b) eqn:E.
  - apply is_nl_true in E. subst b.
    destruct (lines s) as [|l ls] eqn:El; [now apply lines_nonempty in El|].
    change (unlines ([] :: l :: ls)) with (LF :: unlines (l :: ls)).
    now rewrite IH.
  - destruct (lines s) as [|l ls] eqn:El; [now apply lines_nonempty in El|].
    now rewrite unlines_cons, IH.
Qed.

Lemma null_line_shape (l : list byte) :
  null_line l = true ->
  exists a b, l = a ++ label ++ b ++ null /\
              all_space a = true /\ all_space b = true /\
              mask_line MASK l = a ++ label ++ b ++ MASK.
Proof.
  unfold null_line, mask_line. intros H. apply andb_prop in H as [_ H].
  destruct (strip label (drop_space l)) as [l2|] eqn:E1; [|discriminate].
  rewrite H. apply bool_decide_eq_true in H.
  apply strip_Some in E1.
  exists (take_space l), (take_space l2). rewrite !take_space_all.
  repeat split; auto.
  rewrite <- (take_drop_space l) at 1. rewrite E1.
  rewrite <- (take_drop_space l2) at 1. now rewrite H.
Qed.

Lemma mask_line_kept (l : list byte) : kept_line l = true -> mask_line MASK l = l.
Proof.
  intros Hk. unfold mask_line.
  destruct (strip label (drop_space l)) as [l2|] eqn:E1; [|reflexivity].
  destruct (bool_decide_reflect (drop_space l2 = null)) as [E2|E2]; [|reflexivity].
  exfalso. apply kept_line_spec in Hk as (_ & HL & _). apply HL.
  apply strip_Some in E1.
  exists (take_space l), label, (take_space l2), null, [].
  rewrite !take_space_all, app_nil_r. repeat split; auto.
  rewrite <- (take_drop_space l) at 1. rewrite E1.
  rewrite <- (take_drop_space l2) at 1. now rewrite E2.
Qed.

Lemma trail_label (a t : list byte) :
  all_space a = true -> no_LF a = true -> trail (a ++ label ++ t) = None.
Proof.
  induction a as [|x a IH]; intros Ha Hn; [reflexivity|].
  simpl in Ha, Hn. apply andb_prop in Ha as [Hx Ha].
  apply andb_prop in Hn as [Hnx Hn]. cbn [app trail]. rewrite Hx, IH by assumption.
  apply negb_true_iff in Hnx. now rewrite Hnx.
Qed.

Lemma trail_tidy (line post : list byte) :
  tidy_line line = true -> at_eol post = true -> trail (line ++ post) = None.
Proof.
  unfold tidy_line. intros H Hpost. apply orb_prop in H as [H|H].
  - now apply trail_kept.
  - pose proof H as H'. unfold null_line in H'. apply andb_prop in H' as [Hn _].
    apply null_line_shape in H as (a & b & -> & Ha & Hb & _).
    rewrite <- !app_assoc. apply trail_label; [assumption|].
    rewrite no_LF_app in Hn. now apply andb_prop in Hn as [? _].
Qed.

Lemma unlines_at_eol (l : list byte) (ls : list (list byte)) :
  exists post, unlines (l :: ls) = l ++ post /\ at_eol post = true.
Proof.
  destruct ls as [|l2 ls].
  - exists []. now rewrite app_nil_r.
  - now exists (LF :: unlines (l2 :: ls)).
Qed.

(** On the lines of a tidy file the masker works line by line. *)
Lemma mask_from_tidy (ls : list (list byte)) :
  ls <> [] -> forallb tidy_line ls = true ->
  mask_from MASK true (unlines ls) = unlines (map (mask_line MASK) ls).
Proof.
  induction ls as [|l ls IH]; [congruence|]. intros _ H.
  simpl in H. apply andb_prop in H as [Hl Hls].
  destruct ls as [|l2 ls].
  - (* the last line *)
    cbn [unlines map]. unfold tidy_line in Hl. apply orb_prop in Hl as [Hk|Hn].
    + rewrite mask_line_kept by assumption.
      rewrite <- (app_nil_r l) at 1.
      rewrite (mask_from_kept _ MASK_dollar_free) by auto.
      now rewrite (mask_from_nil _ MASK_dollar_free), app_nil_r.
    + apply null_line_shape in Hn as (a & b & -> & Ha & Hb & ->).
      rewrite <- (app_nil_r null).
      rewrite <- maskOAuthConsumerSecret_from.
      now apply mask_match.
  - (* a line followed by others *)
    specialize (IH ltac:(discriminate) Hls).
    change (unlines (l :: l2 :: ls)) with (l ++ LF :: unlines (l2 :: ls)).
    change (unlines (map (mask_line MASK) (l :: l2 :: ls)))
      with (mask_line MASK l ++ LF :: unlines (map (mask_line MASK) (l2 :: ls))).
    rewrite <- IH.
    unfold tidy_line in Hl. apply orb_prop in Hl as [Hk|Hn].
    + rewrite mask_line_kept by assumption.
      rewrite (mask_from_kept _ MASK_dollar_free) by auto.
      now rewrite (mask_from_false_cons _ MASK_dollar_free).
    + apply null_line_shape in Hn as (a & b & -> & Ha & Hb & ->).
      rewrite <- !app_assoc.
      rewrite (mask_from_eq _ MASK_dollar_free), scan_shape by assumption.
      assert (Ht : trail (LF :: unlines (l2 :: ls))
                   = Some ([], LF :: unlines (l2 :: ls))).
      { cbn [trail]. change (is_space LF) with true.
        destruct (unlines_at_eol l2 ls) as (post & -> & Hpost).
        simpl in Hls. apply andb_prop in Hls as [Hl2 _].
        now rewrite (trail_tidy _ _ Hl2 Hpost). }
      rewrite Ht. cbn [bol_after].
      now rewrite (mask_from_false_cons _ MASK_dollar_free), <- !app_assoc.
Qed.

End MaskerMore.

(** X16.  Where the masker changes nothing, for every masking token
    without [$]:
    (1) a line that is not blank and is not made of the label and [null]
    alone is left byte for byte as it is, wherever it stands, and the text
    before it and the text after it are masked as if each stood alone;
    (2) in particular a line with the label and a value that is neither
    empty nor [null] is left as it is;
    (3) an input in which the pattern has no match is returned unchanged. *)
Theorem mask_keeps_lines (MASK : list byte) (Hd : dollar_free MASK = true) :
  (forall (pre post : option (list byte)) (line : list byte),
      kept_line line = true ->
      maskOAuthConsumerSecret MASK (before pre ++ line ++ after post)
      = before (option_map (maskOAuthConsumerSecret MASK) pre)
        ++ line ++ after (option_map (maskOAuthConsumerSecret MASK) post)) /\
  (forall (pre post : option (list byte)) (a b v v' : list byte) (c : byte),
      all_space a = true -> all_space b = true ->
      no_LF a = true -> no_LF b = true -> no_LF v = true ->
      v = c :: v' -> is_space c = false ->
      (forall w, all_space w = true -> v <> null ++ w) ->
      maskOAuthConsumerSecret MASK
        (before pre ++ (a ++ label ++ b ++ v) ++ after post)
      = before (option_map (maskOAuthConsumerSecret MASK) pre)
        ++ (a ++ label ++ b ++ v)
        ++ after (option_map (maskOAuthConsumerSecret MASK) post)) /\
  (forall x : list byte,
      (forall p a b w r,
          x = p ++ a ++ label ++ b ++ null ++ w ++ r ->
          bol_after true p = true ->
          all_space a = true -> all_space b = true -> all_space w = true ->
          at_eol r = true -> False) ->
      maskOAuthConsumerSecret MASK x = x).
Proof.
  split; [|split].
  - intros pre post line Hk. now apply mask_kept_line.
  - intros pre post a b v v' c Ha Hb Hna Hnb Hnv Ev Hc Hv.
    apply mask_kept_line; [assumption|].
    now apply (valued_line_kept a b v c v').
  - intros x H. rewrite maskOAuthConsumerSecret_from.
    now apply mask_from_no_match.
Qed.

Lemma mask_keeps_lines_witness :
  dollar_free sample_mask = true /\
  maskOAuthConsumerSecret sample_mask
    (before (Some (str "oauthConsumerSecret: null"))
     ++ str "oauthConsumerSecret: s3cret" ++ after (Some (str "name: app")))
  = before (option_map (maskOAuthConsumerSecret sample_mask)
              (Some (str "oauthConsumerSecret: null")))
    ++ str "oauthConsumerSecret: s3cret"
    ++ after (option_map (maskOAuthConsumerSecret sample_mask)
                (Some (str "name: app"))).
Proof.
  split; [reflexivity|].
  apply (proj1 (mask_keeps_lines sample_mask eq_refl)). reflexivity.
Defined.

(** X11.  On a tidy file, one whose lines are each a null secret (blanks,
    the label, blanks, [null]) or a line that no match can cover, the masker
    does what the line-by-line description says: it rewrites the value of
    each null secret and keeps every other line, for a masking token
    without [$]. *)
Theorem mask_line_by_line (MASK : list byte) (Hd : dollar_free MASK = true)
        (x : list byte) :
  forallb tidy_line (lines x) = true ->
  maskOAuthConsumerSecret MASK x = mask_by_line MASK x.
Proof.
  intros H. unfold mask_by_line.
  rewrite <- (mask_from_tidy MASK Hd (lines x) (lines_nonempty x) H).
  now rewrite unlines_lines.
Qed.

Lemma mask_line_by_line_witness :
  maskOAuthConsumerSecret sample_mask
    (str "inboundAuthType: oauth2" ++ [LF]
     ++ str "  oauthConsumerSecret: null" ++ [LF]
     ++ str "  oauthConsumerSecret:  null" ++ [LF] ++ str "name: app")
  = mask_by_line sample_mask
      (str "inboundAuthType: oauth2" ++ [LF]
       ++ str "  oauthConsumerSecret: null" ++ [LF]
       ++ str "  oauthConsumerSecret:  null" ++ [LF] ++ str "name: app").
Proof.
  apply (mask_line_by_line sample_mask eq_refl). reflexivity.
Defined.

(** X12.  What the masker does with the whitespace after [null]: all of
    it, line feeds and blank lines included, is removed, up to the end of
    the input or to the line feed before the next line that no match can
    cover; that line and what follows it are not touched by this match. *)
Theorem mask_drops_whitespace_after_null
        (MASK : list byte) (Hd : dollar_free MASK = true)
        (a b w : list byte) :
  all_space a = true -> all_space b = true -> all_space w = true ->
  maskOAuthConsumerSecret MASK (a ++ label ++ b ++ null ++ w)
  = a ++ label ++ b ++ MASK /\
  (forall (line : list byte) (post : option (list byte)),
      kept_line line = true ->
      maskOAuthConsumerSecret MASK
        (a ++ label ++ b ++ null ++ w ++ LF :: line ++ after post)
      = a ++ label ++ b ++ MASK ++ LF :: line
        ++ after (option_map (maskOAuthConsumerSecret MASK) post)).
Proof.
  intros Ha Hb Hw. split; [now apply mask_match|].
  intros line post Hk.
  pose proof (mask_kept_line MASK Hd (Some (a ++ label ++ b ++ null ++ w))
                post line Hk) as H.
  cbn [before option_map] in H.
  rewrite (mask_match MASK Hd a b w Ha Hb Hw) in H.
  rewrite <- !app_assoc in H. cbn [app] in H. exact H.
Qed.

Lemma mask_drops_whitespace_after_null_witness :
  maskOAuthConsumerSecret sample_mask
    ([] ++ label ++ str " " ++ null ++ (str "  " ++ [LF; LF]) ++ LF
        :: str "name: app" ++ after None)
  = [] ++ label ++ str " " ++ sample_mask ++ LF
       :: str "name: app"
       ++ after (option_map (maskOAuthConsumerSecret sample_mask) None).
Proof.
  apply (proj2 (mask_drops_whitespace_after_null sample_mask eq_refl
                  [] (str " ") (str "  " ++ [LF; LF])
                  eq_refl eq_refl eq_refl)).
  reflexivity.
Defined.

Lemma occurs_prefix (p s : list byte) :
  strings.HasPrefix s p = true -> occurs p s = true.
Proof. intros H. destruct s; cbn [occurs]; now rewrite H. Qed.

Lemma occurs_app (p u v : list byte) : occurs p (u ++ p ++ v) = true.
Proof.
  induction u as [|c u IH].
  - cbn [app]. apply occurs_prefix, HasPrefix_app.
  - cbn [app occurs]. rewrite IH. apply orb_true_r.
Qed.

(** X13.  An input in which the label does not occur, or in which [null]
    does not occur, is returned as it is. *)
Theorem mask_needs_label_and_null
        (MASK : list byte) (Hd : dollar_free MASK = true) (x : list byte) :
  (occurs label x && occurs null x)%bool = false ->
  maskOAuthConsumerSecret MASK x = x.
Proof.
  intros H. rewrite maskOAuthConsumerSecret_from.
  apply (mask_from_no_match MASK Hd). intros p a b w r E _ _ _ _ _.
  assert (H1 : occurs label x = true).
  { rewrite E, (app_assoc p a). apply occurs_app. }
  assert (H2 : occurs null x = true).
  { rewrite E.
    replace (p ++ a ++ label ++ b ++ null ++ w ++ r)
      with ((p ++ a ++ label ++ b) ++ null ++ w ++ r)
      by now rewrite <- !app_assoc.
    apply occurs_app. }
  rewrite H1, H2 in H. discriminate H.
Qed.

Lemma mask_needs_label_and_null_witness :
  maskOAuthConsumerSecret sample_mask (str "oauthConsumerSecret: s3cret")
  = str "oauthConsumerSecret: s3cret".
Proof.
  apply (mask_needs_label_and_null sample_mask eq_refl). reflexivity.
Defined.

Section NoMatchLeft.
Variable MASK : list byte.
Hypothesis MASK_ok : mask_token_ok MASK = true.

Lemma masked_has_no_match (n : nat) :
  forall s b1 b2 p q,
    (length s <= n)%nat -> (b2 = true -> b1 = true) ->
    mask_from MASK b1 s = p ++ q ->
    scan (bol_after b2 p) q = None.
Proof.
  pose proof (MASK_dollar MASK MASK_ok) as Hd.
  induction n as [n IH] using lt_wf_ind. intros s b1 b2 p q Hlen Hb.
  rewrite (mask_from_eq _ Hd b1 s).
  destruct (scan b1 s) as [[[g1 w] r]|] eqn:E.
  - pose proof (scan_shorter _ _ _ _ _ E) as Hr.
    apply scan_sound in E as (_ & _ & (a & b & -> & Ha & Hb') & _).
    destruct (MASK_parts MASK MASK_ok) as (h & m & Hm & _ & _ & Hnl).
    intros Eq.
    assert (Eq' : (a ++ label ++ b ++ MASK)
                    ++ mask_from MASK (bol_after false w) r = p ++ q)
      by now rewrite <- Eq, <- !app_assoc.
    assert (HG : forall bl, bol_after bl (a ++ label ++ b ++ MASK) = false).
    { intros bl. rewrite !app_assoc, bol_after_app.
      apply bol_after_no_LF; [now rewrite Hm | assumption]. }
    apply app_eq_app in Eq' as [l [[E1 E2]|[E1 E2]]].
    + destruct l as [|x l].
      * rewrite app_nil_r in E1. simpl in E2. subst p q. rewrite HG.
        apply (IH (length r)) with (s := r) (b1 := bol_after false w)
                                   (b2 := false) (p := []);
          [lia | lia | discriminate | reflexivity].
      * subst q. apply (no_match_inside MASK MASK_ok a b p (x :: l));
          [assumption | assumption | now rewrite E1 | discriminate].
    + subst p. rewrite bol_after_app, HG.
      apply (IH (length r)) with (s := r) (b1 := bol_after false w) (b2 := false);
        [lia | lia | discriminate | assumption].
  - destruct s as [|c s].
    + intros Eq. symmetry in Eq. apply app_eq_nil in Eq as [-> ->].
      apply scan_nil.
    + intros Eq. destruct p as [|c' p].
      * simpl in Eq. subst q. cbn [bol_after].
        destruct b2; [|reflexivity]. rewrite (Hb eq_refl) in E.
        apply (scan_None_masked_tail MASK MASK_ok [c] s true (is_nl c) E).
      * simpl in Eq. inversion Eq; subst c'. cbn [bol_after].
        simpl in Hlen.
        apply (IH (length s)) with (s := s) (b1 := is_nl c); auto; lia.
Qed.

End NoMatchLeft.

(** X14.  The masker leaves no match behind: the pattern matches at no
    position of its output, so no null secret is left to mask.  This is for
    the masking tokens of C7. *)
Theorem mask_leaves_no_match
        (MASK : list byte) (Hok : mask_token_ok MASK = true)
        (x p q : list byte) :
  maskOAuthConsumerSecret MASK x = p ++ q ->
  exec pattern (bol_after true p) q = None.
Proof.
  intros E. rewrite exec_scan.
  rewrite (masked_has_no_match MASK Hok (length x) x true true p q); auto.
Qed.

Lemma mask_leaves_no_match_witness :
  exec pattern
    (bol_after true (str "oauthConsumerSecret: '********'" ++ [LF]))
    (str "name: app")
  = None.
Proof.
  apply (mask_leaves_no_match sample_mask eq_refl sample_file). reflexivity.
Defined.

Section NullLine.
Variable MASK : list byte.
Hypothesis MASK_dollar_free : dollar_free MASK = true.

Lemma trail_first_line (q : list byte) :
  first_line_not_blank q = true -> trail q = None.
Proof.
  unfold first_line_not_blank.
  induction q as [|c q IH]; cbn [drop_space take_space trail]; [discriminate|].
  destruct (is_space c) eqn:Ec; [|reflexivity].
  destruct (drop_space q) as [|d q'] eqn:Ed; [discriminate|].
  cbn [no_LF forallb]. intros H. apply andb_prop in H as [Hc Hq].
  rewrite (IH Hq). apply negb_true_iff in Hc. now rewrite Hc.
Qed.

(** Whitespace before a match belongs to its first group. *)
Lemma scan_space_app (u s : list byte) :
  all_space u = true ->
  scan true (u ++ s)
  = match scan true s with
    | Some (g1, w, r) => Some (u ++ g1, w, r)
    | None => None
    end.
Proof.
  intros Hu. unfold scan. rewrite drop_space_app by assumption.
  destruct (strip label (drop_space s)) as [s2|]; [|reflexivity].
  destruct (strip null (drop_space s2)) as [s4|]; [|reflexivity].
  destruct (trail s4) as [[w r]|]; [|reflexivity].
  now rewrite take_space_app, <- app_assoc by assumption.
Qed.

Lemma scan_all_space (bl : bool) (u : list byte) :
  all_space u = true -> scan bl u = None.
Proof.
  intros Hu. unfold scan. rewrite drop_space_all by assumption.
  now destruct bl.
Qed.

Lemma mask_from_all_space (u : list byte) :
  all_space u = true -> forall bl, mask_from MASK bl u = u.
Proof.
  induction u as [|c u IH]; intros Hu bl.
  - now apply mask_from_nil.
  - rewrite (mask_from_eq _ MASK_dollar_free), scan_all_space by assumption.
    simpl in Hu. apply andb_prop in Hu as [_ Hu]. now rewrite IH.
Qed.

(** Blank lines are copied, whether or not a match starts in them. *)
Lemma mask_from_space_LF (u s : list byte) :
  all_space u = true ->
  forall bl, mask_from MASK bl (u ++ LF :: s) = u ++ LF :: mask_from MASK true s.
Proof.
  assert (H0 : forall bl, mask_from MASK bl (LF :: s) = LF :: mask_from MASK true s).
  { intros [|]; [|now rewrite mask_from_false_cons by assumption].
    rewrite (mask_from_eq _ MASK_dollar_free true (LF :: s)).
    change (LF :: s) with ([LF] ++ s) at 1.
    rewrite scan_space_app by reflexivity.
    destruct (scan true s) as [[[g1 w] r]|] eqn:E; [|reflexivity].
    now rewrite (mask_from_eq _ MASK_dollar_free true s), E. }
  induction u as [|c u IH]; intros Hu bl; [apply H0|].
  simpl in Hu. apply andb_prop in Hu as [Hc Hu].
  destruct bl.
  - rewrite (mask_from_eq _ MASK_dollar_free true ((c :: u) ++ LF :: s)).
    replace ((c :: u) ++ LF :: s) with (((c :: u) ++ [LF]) ++ s) at 1
      by now rewrite <- app_assoc.
    rewrite scan_space_app
      by (rewrite all_space_app; simpl; now rewrite Hc, Hu).
    destruct (scan true s) as [[[g1 w] r]|] eqn:E.
    + rewrite (mask_from_eq _ MASK_dollar_free true s), E.
      now rewrite <- !app_assoc.
    + cbn [app]. now rewrite IH.
  - cbn [app]. rewrite mask_from_false_cons by assumption. now rewrite IH.
Qed.

(** No match starts before a line that begins with the label and runs
    into it, unless it starts in the blank lines just before it. *)
Lemma scan_before_label (bl : bool) (pre a rest : list byte) :
  all_space a = true -> all_space pre = false -> scan bl pre = None ->
  scan bl (pre ++ LF :: a ++ label ++ rest) = None.
Proof.
  intros Ha Hpre Hnone.
  remember (a ++ label ++ rest) as t eqn:Et.
  destruct (scan bl (pre ++ LF :: t)) as [[[g1 w] r]|] eqn:E;
    [exfalso|reflexivity].
  apply scan_sound in E as (-> & E & (a' & b' & -> & Ha' & Hb') & Hw & Hr).
  assert (E' : pre ++ LF :: t = (a' ++ label ++ b' ++ null ++ w) ++ r)
    by now rewrite E, <- !app_assoc.
  clear E. apply app_eq_app in E' as [l [[E1 E2]|[E1 E2]]].
  { subst r. apply at_eol_app_LF in Hr.
    apply (scan_complete a' b' w l Ha' Hb' Hw Hr).
    rewrite <- Hnone, E1, <- !app_assoc. reflexivity. }
  destruct l as [|x l].
  { rewrite app_nil_r in E1.
    apply (scan_complete a' b' w [] Ha' Hb' Hw eq_refl).
    rewrite <- Hnone, <- E1, app_nil_r. reflexivity. }
  change ((x :: l) ++ r) with (x :: l ++ r) in E2.
  injection E2 as Ex E3. subst x.
  apply LF_in_app in E1 as [(u & -> & _)|(X1 & -> & E1)].
  { apply all_space_split in Ha' as [Ha1 _]. congruence. }
  apply LF_in_app in E1 as [(u & E1 & _)|(X2 & -> & E1)].
  { apply (no_LF_token label X1 u); [tauto | assumption]. }
  apply LF_in_app in E1 as [(b2 & -> & ->)|(X3 & -> & E1)].
  { apply all_space_split in Hb' as [_ Hb2].
    rewrite Et in E3. apply (f_equal drop_space) in E3.
    rewrite drop_space_app, drop_space_label in E3 by assumption.
    rewrite <- !app_assoc, drop_space_app, drop_space_null in E3 by assumption.
    apply (f_equal (strip label)) in E3.
    rewrite strip_app, strip_label_null in E3. discriminate E3. }
  apply LF_in_app in E1 as [(u & E1 & _)|(X4 & -> & E1)].
  { apply (no_LF_token null X3 u); [tauto | assumption]. }
  subst w. apply all_space_split in Hw as [Hw1 _].
  apply (scan_complete a' b' X4 [] Ha' Hb' Hw1 eq_refl).
  rewrite app_nil_r. exact Hnone.
Qed.

(** What comes before a line that begins with the label is masked as if it
    stood alone. *)
Lemma mask_from_before_label (a rest : list byte) :
  all_space a = true -> no_LF a = true ->
  forall n pre bl,
    (length pre <= n)%nat ->
    mask_from MASK bl (pre ++ LF :: a ++ label ++ rest)
    = mask_from MASK bl pre ++ LF :: mask_from MASK true (a ++ label ++ rest).
Proof.
  intros Ha Hna. induction n as [n IH] using lt_wf_ind.
  intros pre bl Hlen.
  destruct (all_space pre) eqn:Hpre.
  { rewrite mask_from_space_LF by assumption.
    now rewrite (mask_from_all_space pre Hpre). }
  rewrite (mask_from_eq _ MASK_dollar_free bl pre),
  (mask_from_eq _ MASK_dollar_free bl (pre ++ _)).
  destruct (scan bl pre) as [[[g1 w] r]|] eqn:E.
  - rewrite (scan_extend_Some _ _ _ _ _ _ E (trail_label a rest Ha Hna)).
    apply scan_shorter in E.
    rewrite (IH (length r)) by lia. now rewrite <- !app_assoc.
  - rewrite (scan_before_label _ _ _ _ Ha Hpre E).
    destruct pre as [|c pre]; [discriminate Hpre|].
    cbn [app]. simpl in Hlen. rewrite (IH (length pre)) by lia.
    reflexivity.
Qed.

(** A null secret at the start of the text: the token takes the place of
    [null], the whitespace up to the next line that is not blank goes, and
    that line and what follows are masked on their own. *)
Lemma mask_from_null_line (a b ws : list byte) (post : option (list byte)) :
  all_space a = true -> all_space b = true -> all_space ws = true ->
  match post with Some q => first_line_not_blank q | None => true end = true ->
  mask_from MASK true (a ++ label ++ b ++ null ++ ws ++ after post)
  = a ++ label ++ b ++ MASK ++ after (option_map (mask_from MASK true) post).
Proof.
  intros Ha Hb Hws Hpost.
  rewrite (mask_from_eq _ MASK_dollar_free), scan_shape by assumption.
  destruct post as [q|]; cbn [after option_map].
  - rewrite (trail_extend ws ws [] q (trail_all_space ws Hws)
               (trail_first_line q Hpost)).
    cbn [app]. rewrite (mask_from_space_LF [] q eq_refl).
    now rewrite <- !app_assoc.
  - rewrite app_nil_r, trail_all_space by assumption.
    rewrite mask_from_nil by assumption.
    now rewrite <- !app_assoc.
Qed.

End NullLine.

(** X17.  A null secret is masked wherever it stands.  Take a line that
    begins with blanks and the label, then whitespace, [null] and
    whitespace of any kind up to the end of the input or to the line feed
    before the next line that is not blank.  The masker writes the blanks,
    the label, the whitespace after it and the token; it drops the
    whitespace after [null], blank lines included; and it masks the text
    before the line and the text from the next line that is not blank as
    if each stood alone.  This is for a masking token without [$]. *)
Theorem mask_null_line
        (MASK : list byte) (Hd : dollar_free MASK = true)
        (pre post : option (list byte)) (a b ws : list byte) :
  all_space a = true -> no_LF a = true ->
  all_space b = true -> all_space ws = true ->
  match post with Some q => first_line_not_blank q | None => true end = true ->
  maskOAuthConsumerSecret MASK
    (before pre ++ (a ++ label ++ b ++ null ++ ws) ++ after post)
  = before (option_map (maskOAuthConsumerSecret MASK) pre)
    ++ (a ++ label ++ b ++ MASK)
    ++ after (option_map (maskOAuthConsumerSecret MASK) post).
Proof.
  intros Ha Hna Hb Hws Hpost.
  rewrite maskOAuthConsumerSecret_from.
  replace (before pre ++ (a ++ label ++ b ++ null ++ ws) ++ after post)
    with (before pre ++ a ++ label ++ b ++ null ++ ws ++ after post)
    by now rewrite <- !app_assoc.
  pose proof (mask_from_null_line MASK Hd a b ws post Ha Hb Hws Hpost) as H.
  destruct pre as [p|]; cbn [before option_map app].
  - rewrite <- app_assoc. cbn [app].
    rewrite (mask_from_before_label MASK Hd a _ Ha Hna (length p)) by lia.
    rewrite H, <- !app_assoc. reflexivity.
  - rewrite H, <- !app_assoc. reflexivity.
Qed.

Lemma mask_null_line_witness :
  maskOAuthConsumerSecret sample_mask
    (before (Some (str "oauthConsumerSecret: null"))
     ++ (str "  " ++ label ++ str " " ++ null ++ (str " " ++ [LF; LF]))
     ++ after (Some (str "oauthConsumerSecret: null" ++ [LF])))
  = before (option_map (maskOAuthConsumerSecret sample_mask)
              (Some (str "oauthConsumerSecret: null")))
    ++ (str "  " ++ label ++ str " " ++ sample_mask)
    ++ after (option_map (maskOAuthConsumerSecret sample_mask)
                (Some (str "oauthConsumerSecret: null" ++ [LF]))).
Proof.
  apply (mask_null_line sample_mask eq_refl); reflexivity.
Defined.

(** X15.  [getAppList] sends two requests, on every path: the count
    request and then the list request, whose limit is the count that the
    count function returned (the [totalResults] of the server when the
    count succeeded, -1 when it failed); it logs the failure of the count
    between the two. *)
Theorem getAppList_requests
        (server : nat -> list byte -> Z -> utils.reply)
        (codes : gmap Z (list byte))
        (json : list byte -> applications.AppList + error)
        (w0 : trace) :
  exists c err w1 tail,
    applications.getTotalAppCount server codes json w0
    = (Returned (c, err), w1) /\
    snd (applications.getAppList server codes json w0)
    = w1
      ++ match err with
         | Some e =>
             [Logged (str "Error while retrieving application count. Retrieving only the default count."
                      ++ str " " ++ Error e)]
         | None => []
         end
      ++ Sent utils.APPLICATIONS c :: tail /\
    requests tail = 0%nat.
Proof.
  destruct (getTotalAppCount_returns server codes json w0)
    as (c & err & w1 & Hc & _ & _).
  exists c, err, w1.
  remember (applications.getAppList server codes json w0) as R eqn:HR.
  unfold applications.getAppList, bind at 1 in HR. rewrite Hc in HR.
  unfold bind, log_Println, emit, SendGetListRequest, defer, ret, panic,
    log_Fatalln in HR.
  destruct err as [e0|]; cbn [fst snd] in HR; rewrite ?requests_logged in HR;
    (destruct (server (requests w1) utils.APPLICATIONS c) as [resp|e];
     [destruct (utils.StatusCode resp =? 200);
      [destruct (utils.Body resp) as [body|e];
       [destruct (json body) as [lst|e]|]
      |destruct (codes !! utils.StatusCode resp)]|]);
    cbn [fst snd] in HR; subst R; cbn [fst snd];
    rewrite <- ?app_assoc; cbn [app];
    eexists; (split; [exact Hc|]); (split; [reflexivity|]); reflexivity.
Qed.
